(** * macaddress: hardware address values, their conversions, order and parser

    A shallow embedding of [macaddress.py] (version 1.0.0) and of the bit
    string helper of its test suite, followed by the properties of the
    library that its specification states.

    Python integers are unbounded, so they are modelled by [Z]; [<<], [>>]
    and [&] are [Z.shiftl], [Z.shiftr] and [Z.land].  Byte strings are
    [list byte], text is [string] (one [ascii] per character, compared by
    code point as Python does; characters above code point 255 are outside
    the model).  A raised exception is a value of [error]. *)

From Stdlib Require Import ZArith List Bool Lia Ascii String.
From Stdlib Require Import Strings.Byte.
From Stdlib Require Import Sorting.Sorted Sorting.Permutation.
Import ListNotations.

Local Open Scope string_scope.
Local Open Scope list_scope.
Local Open Scope Z_scope.

(** ** Exceptions *)

(** One constructor per [raise] site of the module, and one per built-in
    exception that an operator of the module can raise on its own.  A
    constructor stands for the place that raises: the message of the
    exception, which quotes the input and names the classes, is not part of
    the model. *)
Inductive error : Type :=
| TooBig              (* ValueError: ... is too big for ... *)
| Negative            (* ValueError: hardware address cannot be negative *)
| WrongLength         (* ValueError: ... has wrong length for ... *)
| EmptyInput          (* ValueError: hardware address cannot be an empty string *)
| CannotParse         (* ValueError: ... cannot be parsed as ... *)
| NegativeShiftCount  (* ValueError of [<<] on a negative count *)
| NegativeLength      (* ValueError of [int.to_bytes] on a negative length *)
| Overflow            (* OverflowError of [int.to_bytes] *)
| IndexOutOfRange     (* IndexError of [formats[0]] *)
| AttributeMissing.   (* AttributeError of an attribute that the class lacks *)

Inductive result (A : Type) : Type :=
| OK (a : A)
| Raise (e : error).

Arguments OK {A} a.
Arguments Raise {A} e.

Definition bind {A B : Type} (r : result A) (k : A -> result B) : result B :=
  match r with
  | OK a => k a
  | Raise e => Raise e
  end.

Notation "x <- r ;; k" := (bind r (fun x => k))
  (at level 61, r at next level, right associativity).
Notation "' pat <- r ;; k" := (bind r (fun x => match x with pat => k end))
  (at level 61, pat pattern, r at next level, right associativity).

(** The error classes of the specification, as sets of raise sites. *)
Definition is_RangeError (e : error) : bool :=
  match e with TooBig | Negative => true | _ => false end.

Definition is_LengthError (e : error) : bool :=
  match e with WrongLength => true | _ => false end.

Definition is_FormatError (e : error) : bool :=
  match e with EmptyInput | CannotParse => true | _ => false end.

(** ** Classes and values *)

(** A class of hardware addresses.  [name] stands for the identity of the
    class object and [bases] lists the names of its proper ancestors (its
    method resolution order without the class itself). *)
Record Kind : Type := mkKind {
  name : string;
  bases : list string;
  size : Z;
  formats : list string
}.

(** [issubclass k1 k2]: class [k1] is [k2] or derives from it. *)
Definition issubclass (k1 k2 : Kind) : bool :=
  String.eqb (name k1) (name k2) || existsb (String.eqb (name k2)) (bases k1).

(** An instance: its class and the single slot [_address]. *)
Record HWAddress : Type := mkHWAddress {
  cls : Kind;
  _address : Z
}.

Definition isinstance (obj : HWAddress) (k : Kind) : bool :=
  issubclass (cls obj) k.

(** ** Byte strings and integers *)

Definition byte_of_Z (z : Z) : byte :=
  match Byte.of_N (Z.to_N z) with
  | Some b => b
  | None => x00
  end.

Definition Z_of_byte (b : byte) : Z := Z.of_N (Byte.to_N b).

(** [int.from_bytes(bs, 'big')] *)
Definition int_from_bytes (bs : list byte) : Z :=
  fold_left (fun acc b => acc * 256 + Z_of_byte b) bs 0.

Fixpoint little_endian (len : nat) (n : Z) : list byte :=
  match len with
  | O => []
  | S len' => byte_of_Z (n mod 256) :: little_endian len' (n / 256)
  end.

(** [n.to_bytes(len, 'big')] *)
Definition int_to_bytes (n len : Z) : result (list byte) :=
  if len <? 0 then Raise NegativeLength
  else if n <? 0 then Raise Overflow
  else if 256 ^ len <=? n then Raise Overflow
  else OK (rev (little_endian (Z.to_nat len) n)).

(** ** Constructors ([HWAddress.__init__], one function per accepted type) *)

Definition from_integer (K : Kind) (address : Z) : result HWAddress :=
  if size K <? 0 then Raise NegativeShiftCount
  else
    let overflow := Z.shiftl 1 (size K) in
    if overflow <=? address then Raise TooBig
    else if address <? 0 then Raise Negative
    else OK (mkHWAddress K address).

Definition from_bytes (K : Kind) (address : list byte) : result HWAddress :=
  let length := Z.of_nat (List.length address) in
  let size_in_bytes := Z.shiftr (size K + 7) 3 in
  if negb (length =? size_in_bytes) then Raise WrongLength
  else
    let offset := Z.land (8 - size K) 7 in
    OK (mkHWAddress K (Z.shiftr (int_from_bytes address) offset)).

(** ** Conversions *)

(** [HWAddress.__int__] *)
Definition __int__ (self : HWAddress) : Z := _address self.

(** [HWAddress.__bytes__] *)
Definition __bytes__ (self : HWAddress) : result (list byte) :=
  let offset := Z.land (8 - size (cls self)) 7 in
  let size_in_bytes := Z.shiftr (size (cls self) + 7) 3 in
  int_to_bytes (Z.shiftl (_address self) offset) size_in_bytes.

(** ** Equality ([HWAddress.__eq__], [HWAddress.__ne__]) *)

Definition __eq__ (self other : HWAddress) : bool :=
  if negb (isinstance other (cls self))
     || negb (size (cls self) =? size (cls other))
  then false
  else _address self =? _address other.

Definition __ne__ (self other : HWAddress) : bool :=
  if negb (isinstance other (cls self))
     || negb (size (cls self) =? size (cls other))
  then true
  else negb (_address self =? _address other).

(** ** Order ([_aligned_address_integers] and the four comparisons)

    The other operand is an [HWAddress] by its type, so the
    [NotImplemented] branch of the source is not reachable. *)

Definition _aligned_address_integers (address1 address2 : HWAddress) : Z * Z :=
  let size1 := size (cls address1) in
  let size2 := size (cls address2) in
  if size2 <? size1
  then (__int__ address1, Z.shiftl (__int__ address2) (size1 - size2))
  else (Z.shiftl (__int__ address1) (size2 - size1), __int__ address2).

Definition __lt__ (self other : HWAddress) : bool :=
  let '(this, that) := _aligned_address_integers self other in
  (this <? that) || ((this =? that) && (size (cls self) <? size (cls other))).

Definition __le__ (self other : HWAddress) : bool :=
  let '(this, that) := _aligned_address_integers self other in
  (this <? that) || ((this =? that) && (size (cls self) <=? size (cls other))).

Definition __gt__ (self other : HWAddress) : bool :=
  let '(this, that) := _aligned_address_integers self other in
  (that <? this) || ((this =? that) && (size (cls other) <? size (cls self))).

Definition __ge__ (self other : HWAddress) : bool :=
  let '(this, that) := _aligned_address_integers self other in
  (that <? this) || ((this =? that) && (size (cls other) <=? size (cls self))).

(** ** The comparison operators

    Python evaluates [a == b], and each of the other five comparisons, by
    calling the method of the left operand, except when the class of the
    right operand is another class that derives from the class of the left
    operand: the reflected method of the right operand is then called
    first.  No method above returns [NotImplemented] on an address, so the
    result of the first call is the result of the operator. *)

Definition reflected_first (left right : HWAddress) : bool :=
  negb (String.eqb (name (cls left)) (name (cls right)))
  && isinstance right (cls left).

Definition op_eq (a b : HWAddress) : bool :=
  if reflected_first a b then __eq__ b a else __eq__ a b.

Definition op_ne (a b : HWAddress) : bool :=
  if reflected_first a b then __ne__ b a else __ne__ a b.

Definition op_lt (a b : HWAddress) : bool :=
  if reflected_first a b then __gt__ b a else __lt__ a b.

Definition op_le (a b : HWAddress) : bool :=
  if reflected_first a b then __ge__ b a else __le__ a b.

Definition op_gt (a b : HWAddress) : bool :=
  if reflected_first a b then __lt__ b a else __gt__ a b.

Definition op_ge (a b : HWAddress) : bool :=
  if reflected_first a b then __le__ b a else __ge__ a b.

(** ** The bit string of a value ([_bits] of the test suite) *)

(** The [while size:] loop: the bits of [address], least significant
    first, one per unit of [size]. *)
Fixpoint _bits_loop (size : nat) (address : Z) : list bool :=
  match size with
  | O => []
  | S size' => Z.odd address :: _bits_loop size' (Z.shiftr address 1)
  end.

Definition _bits (a : HWAddress) : list bool :=
  rev (_bits_loop (Z.to_nat (size (cls a))) (_address a)).

(** Order of Python sequences, here on bit strings: the first difference
    decides and a proper prefix is smaller. *)
Fixpoint bits_ltb (l1 l2 : list bool) : bool :=
  match l1, l2 with
  | [], [] => false
  | [], _ :: _ => true
  | _ :: _, [] => false
  | b1 :: l1', b2 :: l2' =>
      if Bool.eqb b1 b2 then bits_ltb l1' l2' else negb b1 && b2
  end.

(** ** The provided classes *)

Definition OUI : Kind :=
  mkKind "OUI" ["HWAddress"] 24 ["xx-xx-xx"; "xx:xx:xx"; "xxxxxx"].

Definition CDI32 : Kind :=
  mkKind "CDI32" ["_StartsWithOUI"; "HWAddress"] 32
    ["xx-xx-xx-xx"; "xx:xx:xx:xx"; "xxxxxxxx"].

Definition CDI40 : Kind :=
  mkKind "CDI40" ["_StartsWithOUI"; "HWAddress"] 40
    ["xx-xx-xx-xx-xx"; "xx:xx:xx:xx:xx"; "xxxxxxxxxx"].

Definition EUI48 : Kind :=
  mkKind "EUI48" ["_StartsWithOUI"; "HWAddress"] 48
    ["xx-xx-xx-xx-xx-xx"; "xx:xx:xx:xx:xx:xx"; "xxxx.xxxx.xxxx"; "xxxxxxxxxxxx"].

Definition MAC : Kind :=
  mkKind "MAC" ["EUI48"; "_StartsWithOUI"; "HWAddress"] (size EUI48) (formats EUI48).

Definition EUI60 : Kind :=
  mkKind "EUI60" ["_StartsWithOUI"; "HWAddress"] 60
    ["x.x.x.x.x.x.x.x.x.x.x.x.x.x.x"; "xx-xx-xx.x.x.x.x.x.x.x.x.x"; "xxxxxxxxxxxxxxx"].

Definition EUI64 : Kind :=
  mkKind "EUI64" ["_StartsWithOUI"; "HWAddress"] 64
    ["xx-xx-xx-xx-xx-xx-xx-xx"; "xx:xx:xx:xx:xx:xx:xx:xx"; "xxxx.xxxx.xxxx.xxxx";
     "xxxxxxxxxxxxxxxx"].

(** A class as the test suite builds them ([_address_classes]): derived
    from [HWAddress] directly, with the size and the formats drawn.  The
    name stands for the identity of the class, and every class built here
    bears the one name: it is meant for statements about a single test
    class, beside the provided classes. *)
Definition Class (size_in_bits : Z) (format_strings : list string) : Kind :=
  mkKind "Class" ["HWAddress"] size_in_bits format_strings.

(** ** Hexadecimal digits *)

Definition _HEX_DIGITS : string := "0123456789ABCDEFabcdef".

(** [character in s], for a string [character] of length one. *)
Fixpoint contains (s : string) (character : ascii) : bool :=
  match s with
  | EmptyString => false
  | String c s' => Ascii.eqb character c || contains s' character
  end.

(** [int(character, 16)]; the source calls it on members of
    [_HEX_DIGITS] only, where it does not raise. *)
Definition int16 (character : ascii) : Z :=
  let n := Z.of_N (N_of_ascii character) in
  if (48 <=? n) && (n <=? 57) then n - 48
  else if (65 <=? n) && (n <=? 70) then n - 55
  else if (97 <=? n) && (n <=? 102) then n - 87
  else 0.

(** [_HEX_DIGITS[nibble]]; the source indexes with [... & 0xf] only, which
    is in range. *)
Definition hex_digit (nibble : Z) : ascii :=
  match String.get (Z.to_nat nibble) _HEX_DIGITS with
  | Some c => c
  | None => Ascii.zero
  end.

(** ** Text of a value ([HWAddress.__str__]) *)

(** The loop over the reversed format; [result.append] adds at the end. *)
Fixpoint str_loop (characters : list ascii) (unconsumed_address_value : Z)
    (result : list ascii) : list ascii :=
  match characters with
  | [] => result
  | character :: rest =>
      if Ascii.eqb character "x"
      then
        let nibble := Z.land unconsumed_address_value 15 in
        str_loop rest (Z.shiftr unconsumed_address_value 4)
          (result ++ [hex_digit nibble])
      else str_loop rest unconsumed_address_value (result ++ [character])
  end.

(** The body of [__str__] for a given format string. *)
Definition render (K : Kind) (format : string) (address : Z) : string :=
  let offset := Z.land (4 - size K) 3 in
  let unconsumed_address_value := Z.shiftl address offset in
  string_of_list_ascii
    (rev (str_loop (rev (list_ascii_of_string format)) unconsumed_address_value [])).

Definition __str__ (self : HWAddress) : result string :=
  match formats (cls self) with
  | [] => Raise IndexOutOfRange
  | format :: _ => OK (render (cls self) format (_address self))
  end.

(** ** The parser ([_parse], [parse] and the constructor from text) *)

(** The dictionary [candidates], in insertion order. *)
Definition dict : Type := list (string * Kind).

Fixpoint dict_get (d : dict) (key : string) : option Kind :=
  match d with
  | [] => None
  | (k, v) :: d' => if String.eqb key k then Some v else dict_get d' key
  end.

Definition setdefault (d : dict) (key : string) (default : Kind) : dict :=
  match dict_get d key with
  | Some _ => d
  | None => d ++ [(key, default)]
  end.

(** The two nested [for] loops that fill [candidates]. *)
Definition collect_formats (length : nat) (candidates : dict) (cls : Kind) : dict :=
  fold_left
    (fun candidates format =>
       if Nat.eqb (String.length format) length
       then setdefault candidates format cls
       else candidates)
    (formats cls) candidates.

Definition collect (length : nat) (classes : list Kind) : dict :=
  fold_left (collect_formats length) classes [].

(** [sorted(candidates.items())], a stable insertion sort on the format
    strings; the keys of a dictionary are distinct, so the classes are
    never compared. *)
Fixpoint insert_sorted (p : string * Kind) (l : dict) : dict :=
  match l with
  | [] => [p]
  | q :: l' =>
      if String.ltb (fst q) (fst p) then q :: insert_sorted p l' else p :: l
  end.

Definition sorted (d : dict) : dict := fold_right insert_sorted [] d.

(** [input[index]] and [candidates[j][0][index]]; the source reads them in
    range only. *)
Definition char_at (s : string) (index : nat) : ascii :=
  match String.get index s with
  | Some c => c
  | None => Ascii.zero
  end.

Definition template_char (candidates : dict) (j index : nat) : ascii :=
  match nth_error candidates j with
  | Some (format, _) => char_at format index
  | None => Ascii.zero
  end.

(** [while start < end and candidates[start][0][index] < character]; the
    loop runs at most [end - start] times, which is the fuel given. *)
Fixpoint advance_start (fuel : nat) (candidates : dict) (index : nat)
    (character : ascii) (start end_ : nat) : nat :=
  match fuel with
  | O => start
  | S fuel' =>
      if (start <? end_)%nat
         && Ascii.ltb (template_char candidates start index) character
      then advance_start fuel' candidates index character (S start) end_
      else start
  end.

(** [while start < end and candidates[end - 1][0][index] > character] *)
Fixpoint retreat_end (fuel : nat) (candidates : dict) (index : nat)
    (character : ascii) (start end_ : nat) : nat :=
  match fuel with
  | O => end_
  | S fuel' =>
      if (start <? end_)%nat
         && Ascii.ltb character (template_char candidates (end_ - 1) index)
      then retreat_end fuel' candidates index character start (end_ - 1)
      else end_
  end.

(** One round of [for index in range(length)] on the state
    [(address, start, end)]. *)
Definition parse_step (candidates : dict) (input : string)
    (st : Z * nat * nat) (index : nat) : result (Z * nat * nat) :=
  let '(address, start, end_) := st in
  let character := char_at input index in
  let '(address, character) :=
    if contains _HEX_DIGITS character
    then (Z.shiftl address 4 + int16 character, "x"%char)
    else (address, character) in
  let start := advance_start (end_ - start) candidates index character start end_ in
  let end_ := retreat_end (end_ - start) candidates index character start end_ in
  if (end_ <=? start)%nat then Raise CannotParse
  else OK (address, start, end_).

Fixpoint parse_loop (candidates : dict) (input : string) (indices : list nat)
    (st : Z * nat * nat) : result (Z * nat * nat) :=
  match indices with
  | [] => OK st
  | index :: rest =>
      st' <- parse_step candidates input st index ;;
      parse_loop candidates input rest st'
  end.

Definition _parse (input : string) (classes : list Kind) : result (Z * Kind) :=
  let length := String.length input in
  if (length <? 1)%nat then Raise EmptyInput
  else
    let candidates := sorted (collect length classes) in
    '(address, start, _) <-
      parse_loop candidates input (seq 0 length)
        (0, 0%nat, List.length candidates) ;;
    match nth_error candidates start with
    | Some (_, cls) =>
        let offset := Z.land (4 - size cls) 3 in
        OK (Z.shiftr address offset, cls)
    | None => Raise IndexOutOfRange
    end.

(** [HWAddress.__init__] on a string. *)
Definition from_text (K : Kind) (address : string) : result HWAddress :=
  '(address, _) <- _parse address [K] ;;
  OK (mkHWAddress K address).

(** [parse(string, *classes)]; [None] is Python's [None]. *)
Definition parse (string : string) (classes : list Kind) : result (option HWAddress) :=
  match classes with
  | [] => OK None
  | _ :: _ =>
      '(address, cls) <- _parse string classes ;;
      a <- from_integer cls address ;;
      OK (Some a)
  end.

(** ** Notions of the specification used to state the properties *)

(** The bit string of a value extended to [width] bits by zeros after its
    last bit: the value is aligned on its first bit. *)
Definition left_aligned_bits (width : Z) (a : HWAddress) : list bool :=
  _bits a ++ repeat false (Z.to_nat (width - size (cls a))).

(** The bit string of a value extended to [width] bits by zeros before its
    first bit. *)
Definition left_zero_padded_bits (width : Z) (a : HWAddress) : list bool :=
  repeat false (Z.to_nat (width - size (cls a))) ++ _bits a.

(** The integer that a bit string denotes, first bit most significant. *)
Fixpoint bits_value (l : list bool) : Z :=
  match l with
  | [] => 0
  | b :: l' => Z.b2z b * 2 ^ Z.of_nat (List.length l') + bits_value l'
  end.

(** The integer of a value aligned on a common width. *)
Definition aligned (width : Z) (a : HWAddress) : Z :=
  Z.shiftl (_address a) (width - size (cls a)).

(** Lexicographic order on the pairs (aligned integer, size). *)
Definition key_lt (width : Z) (a b : HWAddress) : Prop :=
  aligned width a < aligned width b
  \/ (aligned width a = aligned width b /\ size (cls a) < size (cls b)).

Definition key_le (width : Z) (a b : HWAddress) : Prop :=
  aligned width a < aligned width b
  \/ (aligned width a = aligned width b /\ size (cls a) <= size (cls b)).

(** The input character as [_parse] compares it: a hexadecimal digit
    stands for the wildcard. *)
Definition normalise_char (character : ascii) : ascii :=
  if contains _HEX_DIGITS character then "x"%char else character.

Fixpoint normalise (input : string) : string :=
  match input with
  | EmptyString => EmptyString
  | String c input' => String (normalise_char c) (normalise input')
  end.

(** The integer that [_parse] accumulates over some characters. *)
Definition accumulate_chars (address : Z) (characters : list ascii) : Z :=
  fold_left
    (fun address character =>
       if contains _HEX_DIGITS character
       then Z.shiftl address 4 + int16 character
       else address)
    characters address.

Definition accumulate (input : string) : Z :=
  accumulate_chars 0 (list_ascii_of_string input).

(** [offers length t k]: class [k] has the format [t], of length [length]. *)
Definition offers (length : nat) (t : string) (k : Kind) : bool :=
  existsb (String.eqb t) (formats k) && Nat.eqb (String.length t) length.

(** Number of wildcards of a format, counted as [test_provided_classes]
    of the test suite does. *)
Definition wildcards (format : string) : Z :=
  Z.of_nat
    (List.length (filter (fun c => Ascii.eqb c "x") (list_ascii_of_string format))).

(** No literal character of the format is a hexadecimal digit. *)
Definition hex_free (format : string) : bool :=
  forallb (fun c => negb (contains _HEX_DIGITS c)) (list_ascii_of_string format).

(** A kind as the data model of the specification requires it: a positive
    size, at least one format, and [ceil(size / 4)] wildcards in each. *)
Definition valid_kind (K : Kind) : Prop :=
  0 < size K
  /\ formats K <> []
  /\ forall f, In f (formats K) -> wildcards f = (size K + 3) / 4.

(** Order of two entries of [candidates] by their format strings. *)
Definition entry_le (p q : string * Kind) : Prop :=
  String.leb (fst p) (fst q) = true.

(** The window [start, end) holds exactly the candidates that agree with
    the normalised input [t] on the first [i] characters. *)
Definition window_inv (candidates : dict) (t : string) (i start end_ : nat) : Prop :=
  (start <= end_ <= List.length candidates)%nat
  /\ forall j, (j < List.length candidates)%nat ->
       ((start <= j < end_)%nat
        <-> forall m, (m < i)%nat -> template_char candidates j m = char_at t m).

(** The reference matcher of the specification.  A format matches an
    input of its length structurally: a hexadecimal digit of the input at
    every wildcard, the same character elsewhere. *)
Fixpoint matches (template input : string) : bool :=
  match template, input with
  | EmptyString, EmptyString => true
  | String t template', String c input' =>
      (if Ascii.eqb t "x" then contains _HEX_DIGITS c else Ascii.eqb t c)
      && matches template' input'
  | _, _ => false
  end.

(** The (format, kind) pairs of the length of the input, in the order of
    the candidate kinds and of their formats. *)
Definition pairs (length : nat) (classes : list Kind) : list (string * Kind) :=
  flat_map
    (fun k =>
       map (fun f => (f, k))
         (filter (fun f => Nat.eqb (String.length f) length) (formats k)))
    classes.

(** The pair with the smallest format string, the first one among pairs
    with that format string. *)
Definition smallest (l : list (string * Kind)) : option (string * Kind) :=
  fold_left
    (fun best p =>
       match best with
       | None => Some p
       | Some q => if String.ltb (fst p) (fst q) then Some p else Some q
       end)
    l None.

Definition reference_match (input : string) (classes : list Kind) : result (Z * Kind) :=
  match
    smallest
      (filter (fun p => matches (fst p) input) (pairs (String.length input) classes))
  with
  | Some (_, k) => OK (Z.shiftr (accumulate input) ((4 - size k mod 4) mod 4), k)
  | None => Raise CannotParse
  end.

(** A value as the constructors build it. *)
Definition valid (a : HWAddress) : Prop :=
  0 <= size (cls a) /\ 0 <= _address a < 2 ^ size (cls a).

(** ** The prefix of a value ([_StartsWithOUI.oui]) *)

(** The class is [_StartsWithOUI] or derives from it, so that its
    instances have the property [oui]. *)
Definition has_oui (k : Kind) : bool :=
  String.eqb (name k) "_StartsWithOUI"
  || existsb (String.eqb "_StartsWithOUI") (bases k).

(** [self.oui]: the attribute is missing on an instance of any other
    class; [>>] raises on a negative count. *)
Definition oui (self : HWAddress) : result HWAddress :=
  if negb (has_oui (cls self)) then Raise AttributeMissing
  else
    let count := size (cls self) - size OUI in
    if count <? 0 then Raise NegativeShiftCount
    else from_integer OUI (Z.shiftr (__int__ self) count).

(** The classes that [test_provided_classes] goes through, in its order. *)
Definition provided : list Kind := [OUI; CDI32; CDI40; MAC; EUI48; EUI60; EUI64].

(** ** Further notions used to state properties *)

(** The chain of [try] and [except ValueError] that the docstring of
    [parse] gives as what [parse] replaces: the constructor of each class in
    turn; the value of the first constructor that accepts the string, if
    any. *)
Fixpoint first_accepted (s : string) (classes : list Kind) : option HWAddress :=
  match classes with
  | [] => None
  | k :: rest =>
      match from_text k s with
      | OK a => Some a
      | Raise _ => first_accepted s rest
      end
  end.

(** The other case of a letter among [A-F] and [a-f]; any other character
    is kept. *)
Definition swap_hex_case_char (c : ascii) : ascii :=
  let n := N_of_ascii c in
  if ((65 <=? n) && (n <=? 70))%N then ascii_of_N (n + 32)
  else if ((97 <=? n) && (n <=? 102))%N then ascii_of_N (n - 32)
  else c.

(** The same character, or the same letter among [A-F] and [a-f] in the
    two cases. *)
Definition same_hex_letter (c1 c2 : ascii) : bool :=
  Ascii.eqb c1 c2 || Ascii.eqb (swap_hex_case_char c1) c2.

(** Two strings of one length that differ, where they differ, by the case
    of a letter among [A-F] and [a-f]. *)
Fixpoint differ_by_hex_case (s1 s2 : string) : bool :=
  match s1, s2 with
  | EmptyString, EmptyString => true
  | String c1 s1', String c2 s2' =>
      same_hex_letter c1 c2 && differ_by_hex_case s1' s2'
  | _, _ => false
  end.

(** One character of a text written under a format. *)
Definition canonical_char (t c : ascii) : bool :=
  if Ascii.eqb t "x" then contains "0123456789ABCDEF" c else Ascii.eqb t c.

(** A text written under a format: one of the digits [0-9A-F] at every
    wildcard, the character of the format elsewhere. *)
Fixpoint canonical_text (template text : string) : bool :=
  match template, text with
  | EmptyString, EmptyString => true
  | String t template', String c text' =>
      (if Ascii.eqb t "x" then contains "0123456789ABCDEF" c else Ascii.eqb t c)
      && canonical_text template' text'
  | _, _ => false
  end.

(** * Properties *)

(** ** Shifts, masks and byte strings *)

Section Arithmetic.

Lemma land_7 (x : Z) : Z.land x 7 = x mod 8.
Proof. change 7 with (Z.ones 3). rewrite Z.land_ones by lia. reflexivity. Qed.

Lemma land_3 (x : Z) : Z.land x 3 = x mod 4.
Proof. change 3 with (Z.ones 2). rewrite Z.land_ones by lia. reflexivity. Qed.

Lemma land_15 (x : Z) : Z.land x 15 = x mod 16.
Proof. change 15 with (Z.ones 4). rewrite Z.land_ones by lia. reflexivity. Qed.

(** The byte offset completes the size to a whole number of bytes. *)
Lemma byte_offset_spec (s : Z) :
  0 <= Z.land (8 - s) 7 < 8 /\ s + Z.land (8 - s) 7 = 8 * Z.shiftr (s + 7) 3.
Proof.
  rewrite land_7, Z.shiftr_div_pow2 by lia.
  change (2 ^ 3) with 8. Z.div_mod_to_equations. lia.
Qed.

(** The nibble offset completes the size to a whole number of nibbles. *)
Lemma nibble_offset_spec (s : Z) :
  0 <= Z.land (4 - s) 3 < 4 /\ s + Z.land (4 - s) 3 = 4 * Z.shiftr (s + 3) 2.
Proof.
  rewrite land_3, Z.shiftr_div_pow2 by lia.
  change (2 ^ 2) with 4. Z.div_mod_to_equations. lia.
Qed.

Lemma shiftr_shiftl_same (n k : Z) : 0 <= k -> Z.shiftr (Z.shiftl n k) k = n.
Proof.
  intros Hk. rewrite Z.shiftr_shiftl_l by lia.
  replace (k - k) with 0 by lia. apply Z.shiftl_0_r.
Qed.

Lemma Z_of_byte_range (b : byte) : 0 <= Z_of_byte b < 256.
Proof.
  unfold Z_of_byte. pose proof (Byte.to_N_bounded b). lia.
Qed.

Lemma Z_of_byte_of_Z (z : Z) : 0 <= z < 256 -> Z_of_byte (byte_of_Z z) = z.
Proof.
  intros Hz. unfold Z_of_byte, byte_of_Z.
  destruct (Byte.of_N (Z.to_N z)) as [b|] eqn:E.
  - apply Byte.to_of_N in E. rewrite E. lia.
  - apply Byte.of_N_None_iff in E. lia.
Qed.

Lemma byte_of_Z_of_byte (b : byte) : byte_of_Z (Z_of_byte b) = b.
Proof.
  unfold Z_of_byte, byte_of_Z. rewrite N2Z.id, Byte.of_to_N. reflexivity.
Qed.

Lemma int_from_bytes_snoc (bs : list byte) (b : byte) :
  int_from_bytes (bs ++ [b]) = int_from_bytes bs * 256 + Z_of_byte b.
Proof. unfold int_from_bytes. rewrite fold_left_app. reflexivity. Qed.

Lemma int_from_bytes_range (bs : list byte) :
  0 <= int_from_bytes bs < 256 ^ Z.of_nat (List.length bs).
Proof.
  induction bs as [|b bs IH] using rev_ind.
  - cbn. lia.
  - rewrite int_from_bytes_snoc, length_app, Nat2Z.inj_add, Z.pow_add_r by lia.
    cbn [List.length]. change (256 ^ Z.of_nat 1) with 256.
    pose proof (Z_of_byte_range b). nia.
Qed.

Lemma little_endian_length (len : nat) (n : Z) :
  List.length (little_endian len n) = len.
Proof. revert n. induction len; intros n; cbn; [reflexivity | now rewrite IHlen]. Qed.

(** Reading back the [len] low bytes of [n]. *)
Lemma int_from_bytes_little_endian (len : nat) (n : Z) :
  int_from_bytes (rev (little_endian len n)) = n mod 256 ^ Z.of_nat len.
Proof.
  revert n. induction len as [|len IH]; intros n.
  - cbn. now rewrite Z.mod_1_r.
  - cbn [little_endian rev]. rewrite int_from_bytes_snoc, IH.
    rewrite Z_of_byte_of_Z by (apply Z.mod_pos_bound; lia).
    rewrite Nat2Z.inj_succ, Z.pow_succ_r by lia.
    rewrite (Z.rem_mul_r n 256 (256 ^ Z.of_nat len)) by lia. lia.
Qed.

End Arithmetic.

(** ** Construction from integers and from byte strings *)

Lemma shiftl_1_pow (s : Z) : 0 <= s -> Z.shiftl 1 s = 2 ^ s.
Proof. intros Hs. rewrite Z.shiftl_mul_pow2 by lia. lia. Qed.

Lemma from_integer_OK (K : Kind) (n : Z) :
  0 <= size K -> 0 <= n < 2 ^ size K ->
  from_integer K n = OK (mkHWAddress K n).
Proof.
  intros Hs Hn. unfold from_integer.
  destruct (Z.ltb_spec (size K) 0); [lia|].
  rewrite shiftl_1_pow by lia.
  destruct (Z.leb_spec (2 ^ size K) n); [lia|].
  destruct (Z.ltb_spec n 0); [lia|]. reflexivity.
Qed.

(** C8: the constructor from an integer raises a range error exactly when
    the integer is negative or at least [2 ^ size], and otherwise stores
    the integer unchanged. *)
Theorem C8_from_integer_range (K : Kind) (n : Z) :
  0 <= size K ->
  ((exists e, from_integer K n = Raise e /\ is_RangeError e = true)
   <-> (n < 0 \/ 2 ^ size K <= n))
  /\ (0 <= n < 2 ^ size K -> from_integer K n = OK (mkHWAddress K n)).
Proof.
  intros Hs. split; [split|].
  - intros [e [He _]].
    destruct (Z_lt_dec n 0) as [|Hn]; [now left|].
    destruct (Z_le_dec (2 ^ size K) n) as [|Hn']; [now right|].
    rewrite from_integer_OK in He by lia. discriminate.
  - intros Hn. unfold from_integer.
    destruct (Z.ltb_spec (size K) 0); [lia|].
    rewrite shiftl_1_pow by lia.
    destruct (Z.leb_spec (2 ^ size K) n).
    + exists TooBig. split; reflexivity.
    + destruct (Z.ltb_spec n 0); [|lia].
      exists Negative. split; reflexivity.
  - apply from_integer_OK, Hs.
Qed.

Lemma C8_from_integer_range_witness :
  0 <= size EUI48 /\
  (((exists e, from_integer EUI48 (Z.shiftl 1 48) = Raise e /\ is_RangeError e = true)
    <-> (Z.shiftl 1 48 < 0 \/ 2 ^ size EUI48 <= Z.shiftl 1 48))
   /\ (0 <= Z.shiftl 1 48 < 2 ^ size EUI48 ->
       from_integer EUI48 (Z.shiftl 1 48) = OK (mkHWAddress EUI48 (Z.shiftl 1 48)))).
Proof.
  split; [cbn; lia | apply (C8_from_integer_range EUI48 (Z.shiftl 1 48)); cbn; lia].
Defined.

(** C5: an integer in range survives construction and conversion back. *)
Theorem C5_integer_round_trip (K : Kind) (n : Z) :
  0 <= size K -> 0 <= n < 2 ^ size K ->
  exists a, from_integer K n = OK a /\ __int__ a = n.
Proof.
  intros Hs Hn. exists (mkHWAddress K n). split.
  - apply from_integer_OK; assumption.
  - reflexivity.
Qed.

Lemma C5_integer_round_trip_witness :
  0 <= size EUI60 /\ 0 <= 0x123456789ABCDEF < 2 ^ size EUI60 /\
  exists a, from_integer EUI60 0x123456789ABCDEF = OK a
            /\ __int__ a = 0x123456789ABCDEF.
Proof.
  split; [cbn; lia|]. split; [cbn; lia|].
  apply (C5_integer_round_trip EUI60 0x123456789ABCDEF); cbn; lia.
Defined.

Lemma aligned_below_byte_capacity (s n : Z) :
  0 <= s -> 0 <= n < 2 ^ s ->
  0 <= Z.shiftl n (Z.land (8 - s) 7) < 256 ^ Z.shiftr (s + 7) 3.
Proof.
  intros Hs Hn. destruct (byte_offset_spec s) as [Ho Hsum].
  rewrite Z.shiftl_mul_pow2 by lia.
  change 256 with (2 ^ 8). rewrite <- Z.pow_mul_r by lia.
  rewrite <- Hsum, Z.pow_add_r by lia.
  assert (0 < 2 ^ Z.land (8 - s) 7) by (apply Z.pow_pos_nonneg; lia).
  nia.
Qed.

Lemma bytes_of_value (K : Kind) (n : Z) :
  0 <= size K -> 0 <= n < 2 ^ size K ->
  __bytes__ (mkHWAddress K n)
  = OK (rev (little_endian (Z.to_nat (Z.shiftr (size K + 7) 3))
               (Z.shiftl n (Z.land (8 - size K) 7)))).
Proof.
  intros Hs Hn. unfold __bytes__, int_to_bytes. cbn [cls _address].
  pose proof (aligned_below_byte_capacity (size K) n Hs Hn) as Hb.
  destruct (byte_offset_spec (size K)) as [Ho Hsum].
  destruct (Z.ltb_spec (Z.shiftr (size K + 7) 3) 0); [lia|].
  destruct (Z.ltb_spec (Z.shiftl n (Z.land (8 - size K) 7)) 0); [lia|].
  destruct (Z.leb_spec (256 ^ Z.shiftr (size K + 7) 3)
              (Z.shiftl n (Z.land (8 - size K) 7))); [lia|].
  reflexivity.
Qed.

(** C7: an integer in range survives construction, serialization to
    [ceil(size / 8)] big-endian bytes, construction from those bytes and
    conversion back. *)
Theorem C7_bytes_round_trip (K : Kind) (n : Z) :
  0 <= size K -> 0 <= n < 2 ^ size K ->
  exists a bs b,
    from_integer K n = OK a
    /\ __bytes__ a = OK bs
    /\ Z.of_nat (List.length bs) = (size K + 7) / 8
    /\ from_bytes K bs = OK b
    /\ __int__ b = n.
Proof.
  intros Hs Hn.
  pose proof (aligned_below_byte_capacity (size K) n Hs Hn) as Hb.
  destruct (byte_offset_spec (size K)) as [Ho Hsum].
  set (len := Z.shiftr (size K + 7) 3) in *.
  set (offset := Z.land (8 - size K) 7) in *.
  set (bs := rev (little_endian (Z.to_nat len) (Z.shiftl n offset))).
  assert (Hlen : Z.of_nat (List.length bs) = len).
  { unfold bs. rewrite length_rev, little_endian_length. lia. }
  exists (mkHWAddress K n), bs, (mkHWAddress K n). repeat split.
  - apply from_integer_OK; assumption.
  - apply bytes_of_value; assumption.
  - rewrite Hlen. unfold len. rewrite Z.shiftr_div_pow2 by lia. reflexivity.
  - unfold from_bytes. fold len offset. rewrite Hlen, Z.eqb_refl. cbn [negb].
    unfold bs. rewrite int_from_bytes_little_endian, Z2Nat.id by lia.
    rewrite Z.mod_small by lia. rewrite shiftr_shiftl_same by lia. reflexivity.
Qed.

Lemma C7_bytes_round_trip_witness :
  0 <= size EUI60 /\ 0 <= 0x123456789ABCDEF < 2 ^ size EUI60 /\
  exists a bs b,
    from_integer EUI60 0x123456789ABCDEF = OK a
    /\ __bytes__ a = OK bs
    /\ Z.of_nat (List.length bs) = (size EUI60 + 7) / 8
    /\ from_bytes EUI60 bs = OK b
    /\ __int__ b = 0x123456789ABCDEF.
Proof.
  split; [cbn; lia|]. split; [cbn; lia|].
  apply (C7_bytes_round_trip EUI60 0x123456789ABCDEF); cbn; lia.
Defined.

(** ** Padding bits of a byte string *)

Lemma isinstance_own_class (a : HWAddress) : isinstance a (cls a) = true.
Proof. unfold isinstance, issubclass. now rewrite String.eqb_refl. Qed.

Lemma eq_refl_value (a : HWAddress) : __eq__ a a = true.
Proof.
  unfold __eq__. rewrite isinstance_own_class, !Z.eqb_refl. reflexivity.
Qed.

(** Dropping [offset < 8] low bits only looks at the last byte below them. *)
Lemma shiftr_bytes_snoc (pre : list byte) (x : byte) (offset : Z) :
  0 <= offset < 8 ->
  Z.shiftr (int_from_bytes (pre ++ [x])) offset
  = int_from_bytes pre * 2 ^ (8 - offset) + Z.shiftr (Z_of_byte x) offset.
Proof.
  intros Ho. rewrite int_from_bytes_snoc, !Z.shiftr_div_pow2 by lia.
  replace 256 with (2 ^ (8 - offset) * 2 ^ offset)
    by (rewrite <- Z.pow_add_r by lia; now replace (8 - offset + offset) with 8 by lia).
  rewrite Z.mul_assoc, Z.div_add_l by (apply Z.pow_nonzero; lia).
  reflexivity.
Qed.

Lemma from_bytes_OK (K : Kind) (bs : list byte) :
  Z.of_nat (List.length bs) = (size K + 7) / 8 ->
  from_bytes K bs
  = OK (mkHWAddress K (Z.shiftr (int_from_bytes bs) (Z.land (8 - size K) 7))).
Proof.
  intros Hlen. unfold from_bytes.
  rewrite Z.shiftr_div_pow2 by lia. change (2 ^ 3) with 8.
  rewrite Hlen, Z.eqb_refl. reflexivity.
Qed.

(** C10: for a size that is not a multiple of 8 the constructor from bytes
    accepts every byte string of the right length, whatever its low
    [8 - size mod 8] padding bits, and drops them: byte strings that differ
    in those bits only build equal values, and such distinct byte strings
    exist. *)
Theorem C10_from_bytes_drops_padding (K : Kind) :
  0 < size K -> size K mod 8 <> 0 ->
  let offset := Z.land (8 - size K) 7 in
  offset = 8 - size K mod 8
  /\ (forall bs,
        Z.of_nat (List.length bs) = (size K + 7) / 8 ->
        from_bytes K bs = OK (mkHWAddress K (Z.shiftr (int_from_bytes bs) offset)))
  /\ (forall pre x y,
        Z.of_nat (List.length (pre ++ [x])) = (size K + 7) / 8 ->
        Z.shiftr (Z_of_byte x) offset = Z.shiftr (Z_of_byte y) offset ->
        exists a b,
          from_bytes K (pre ++ [x]) = OK a /\ from_bytes K (pre ++ [y]) = OK b
          /\ a = b /\ __eq__ a b = true)
  /\ (exists bs1 bs2 a,
        bs1 <> bs2
        /\ Z.of_nat (List.length bs1) = (size K + 7) / 8
        /\ Z.of_nat (List.length bs2) = (size K + 7) / 8
        /\ Z.land (int_from_bytes bs2) (Z.ones offset) <> 0
        /\ from_bytes K bs1 = OK a /\ from_bytes K bs2 = OK a).
Proof.
  intros Hs Hm offset.
  assert (Hoff : offset = 8 - size K mod 8).
  { unfold offset. rewrite land_7. Z.div_mod_to_equations. lia. }
  assert (Ho : 0 < offset < 8).
  { rewrite Hoff. pose proof (Z.mod_pos_bound (size K) 8). lia. }
  assert (Hsame : forall pre x y,
             Z.of_nat (List.length (pre ++ [x])) = (size K + 7) / 8 ->
             Z.shiftr (Z_of_byte x) offset = Z.shiftr (Z_of_byte y) offset ->
             from_bytes K (pre ++ [y]) = from_bytes K (pre ++ [x])).
  { intros pre x y Hlen Hxy.
    rewrite !from_bytes_OK; fold offset.
    - rewrite !shiftr_bytes_snoc, Hxy by lia. reflexivity.
    - assumption.
    - rewrite length_app in *. exact Hlen. }
  split; [exact Hoff|]. split; [|split].
  - intros bs Hlen. apply from_bytes_OK, Hlen.
  - intros pre x y Hlen Hxy.
    exists (mkHWAddress K (Z.shiftr (int_from_bytes (pre ++ [x])) offset)).
    exists (mkHWAddress K (Z.shiftr (int_from_bytes (pre ++ [x])) offset)).
    rewrite (Hsame pre x y Hlen Hxy), from_bytes_OK by exact Hlen.
    fold offset. repeat split. apply eq_refl_value.
  - set (pre := repeat x00 (Z.to_nat ((size K + 7) / 8 - 1))).
    assert (Hlen : forall x, Z.of_nat (List.length (pre ++ [x])) = (size K + 7) / 8).
    { intros x. unfold pre. rewrite length_app, repeat_length. cbn [List.length].
      Z.div_mod_to_equations. lia. }
    assert (Hx01 : Z.shiftr (Z_of_byte x00) offset = Z.shiftr (Z_of_byte x01) offset).
    { change (Z_of_byte x00) with 0. change (Z_of_byte x01) with 1.
      rewrite Z.shiftr_0_l, Z.shiftr_div_pow2 by lia.
      symmetry. apply Z.div_small. split; [lia|].
      apply Z.pow_gt_1; lia. }
    exists (pre ++ [x00]), (pre ++ [x01]).
    exists (mkHWAddress K (Z.shiftr (int_from_bytes (pre ++ [x00])) offset)).
    split; [|split; [|split; [|split; [|split]]]].
    + intros E. apply app_inv_head in E. discriminate.
    + apply Hlen.
    + apply Hlen.
    + rewrite int_from_bytes_snoc, Z.land_ones by lia.
      change (Z_of_byte x01) with 1.
      replace 256 with (2 ^ (8 - offset) * 2 ^ offset)
        by (rewrite <- Z.pow_add_r by lia; now replace (8 - offset + offset) with 8 by lia).
      rewrite Z.mul_assoc, Z.add_comm, Z.mod_add by (apply Z.pow_nonzero; lia).
      rewrite Z.mod_small; [lia|]. split; [lia|]. apply Z.pow_gt_1; lia.
    + apply from_bytes_OK, Hlen.
    + rewrite (Hsame pre x00 x01 (Hlen x00) Hx01). apply from_bytes_OK, Hlen.
Qed.

Lemma C10_from_bytes_drops_padding_witness :
  0 < size EUI60 /\ size EUI60 mod 8 <> 0 /\
  exists bs1 bs2 a,
    bs1 <> bs2
    /\ Z.of_nat (List.length bs1) = (size EUI60 + 7) / 8
    /\ Z.of_nat (List.length bs2) = (size EUI60 + 7) / 8
    /\ Z.land (int_from_bytes bs2) (Z.ones (Z.land (8 - size EUI60) 7)) <> 0
    /\ from_bytes EUI60 bs1 = OK a /\ from_bytes EUI60 bs2 = OK a.
Proof.
  split; [cbn; lia|]. split; [cbn; lia|].
  apply (C10_from_bytes_drops_padding EUI60); cbn; lia.
Defined.

(** ** Equality *)

Lemma ne_negb_eq (a b : HWAddress) : __ne__ a b = negb (__eq__ a b).
Proof.
  unfold __ne__, __eq__.
  destruct (negb (isinstance b (cls a)) || negb (size (cls a) =? size (cls b)));
    reflexivity.
Qed.

(** What [__eq__] computes, in full. *)
Lemma eq_spec (a b : HWAddress) :
  __eq__ a b = true
  <-> isinstance b (cls a) = true
      /\ size (cls a) = size (cls b) /\ _address a = _address b.
Proof.
  unfold __eq__.
  destruct (isinstance b (cls a)); cbn [negb orb].
  - destruct (Z.eqb_spec (size (cls a)) (size (cls b))); cbn [negb].
    + rewrite Z.eqb_eq. tauto.
    + split; [discriminate | tauto].
  - split; [discriminate | intros [H _]; discriminate].
Qed.

Lemma op_ne_negb_op_eq (a b : HWAddress) : op_ne a b = negb (op_eq a b).
Proof. unfold op_ne, op_eq. destruct (reflected_first a b); apply ne_negb_eq. Qed.

(** Between two values of one class, and between two values the second of
    which is of no class derived from the class of the first, the operator
    is the method of the left operand. *)
Lemma op_eq_same_class (a b : HWAddress) :
  name (cls a) = name (cls b) ->
  op_eq a b = __eq__ a b /\ isinstance b (cls a) = true.
Proof.
  intros Hn. unfold op_eq, reflected_first, isinstance, issubclass.
  rewrite Hn, !String.eqb_refl. split; reflexivity.
Qed.

Lemma op_eq_not_derived (a b : HWAddress) :
  issubclass (cls b) (cls a) = false -> op_eq a b = __eq__ a b.
Proof.
  intros Hi. unfold op_eq, reflected_first, isinstance.
  now rewrite Hi, andb_false_r.
Qed.

(** C1, as the code has it: for two values of one kind, [a == b] holds
    exactly when the sizes are identical and the integers are equal; for
    two values neither of whose classes derives from the other, [a == b] is
    false whatever the sizes and the integers; [!=] is the negation of [==]
    in every case. *)
Theorem C1_equality (a b : HWAddress) :
  (name (cls a) = name (cls b) ->
   (op_eq a b = true
    <-> size (cls a) = size (cls b) /\ _address a = _address b))
  /\ (issubclass (cls b) (cls a) = false -> issubclass (cls a) (cls b) = false ->
      op_eq a b = false)
  /\ op_ne a b = negb (op_eq a b).
Proof.
  split; [|split].
  - intros Hn. destruct (op_eq_same_class a b Hn) as [-> Hi].
    rewrite eq_spec. tauto.
  - intros Hi _. rewrite (op_eq_not_derived a b Hi).
    destruct (__eq__ a b) eqn:E; [|reflexivity].
    apply eq_spec in E. destruct E as [E _]. unfold isinstance in E. congruence.
  - apply op_ne_negb_op_eq.
Qed.

Lemma C1_equality_witness :
  (op_eq (mkHWAddress EUI48 5) (mkHWAddress EUI48 5) = true
   <-> size EUI48 = size EUI48 /\ 5 = 5)
  /\ op_eq (mkHWAddress OUI 5) (mkHWAddress (Class 24 ["xxxxxx"]) 5) = false.
Proof.
  split.
  - apply (proj1 (C1_equality (mkHWAddress EUI48 5) (mkHWAddress EUI48 5))).
    reflexivity.
  - apply (proj1 (proj2 (C1_equality (mkHWAddress OUI 5)
                           (mkHWAddress (Class 24 ["xxxxxx"]) 5))));
      reflexivity.
Defined.

(** C1 as stated fails: a 24-bit value of [OUI] and a 24-bit value of a
    class of its own with the same integer are not equal. *)
Lemma C1_counterexample :
  ~ (forall a b : HWAddress,
       (op_eq a b = true
        <-> size (cls a) = size (cls b) /\ _address a = _address b)
       /\ op_ne a b = negb (op_eq a b)).
Proof.
  intros H.
  destruct (H (mkHWAddress OUI 0x010203)
              (mkHWAddress (Class 24 ["xxxxxx"]) 0x010203)) as [[_ H1] _].
  specialize (H1 (conj eq_refl eq_refl)). discriminate H1.
Qed.

(** Between a class and a class derived from it the method of the class
    accepts the derived value, but the operator calls the method of the
    derived value first, which rejects the other: a [MAC] and an [EUI48]
    with the same integer are unequal both ways. *)
Lemma op_eq_MAC_EUI48 :
  __eq__ (mkHWAddress EUI48 5) (mkHWAddress MAC 5) = true
  /\ __eq__ (mkHWAddress MAC 5) (mkHWAddress EUI48 5) = false
  /\ op_eq (mkHWAddress EUI48 5) (mkHWAddress MAC 5) = false
  /\ op_eq (mkHWAddress MAC 5) (mkHWAddress EUI48 5) = false
  /\ op_ne (mkHWAddress EUI48 5) (mkHWAddress MAC 5) = true.
Proof. repeat split; reflexivity. Qed.

(** ** Order *)

Section Order.

(** The two integers of [_aligned_address_integers] are the integers
    aligned on any common width, up to a positive common factor. *)
Lemma aligned_pair (W : Z) (a b : HWAddress) :
  size (cls a) <= W -> size (cls b) <= W ->
  exists k, 0 < k
    /\ aligned W a = fst (_aligned_address_integers a b) * k
    /\ aligned W b = snd (_aligned_address_integers a b) * k.
Proof.
  intros Ha Hb. unfold _aligned_address_integers, aligned, __int__.
  destruct (Z.ltb_spec (size (cls b)) (size (cls a))) as [Hlt|Hge]; cbn [fst snd].
  - exists (2 ^ (W - size (cls a))). rewrite !Z.shiftl_mul_pow2 by lia.
    split; [apply Z.pow_pos_nonneg; lia|]. split; [reflexivity|].
    rewrite <- Z.mul_assoc, <- Z.pow_add_r by lia.
    f_equal. f_equal. lia.
  - exists (2 ^ (W - size (cls b))). rewrite !Z.shiftl_mul_pow2 by lia.
    split; [apply Z.pow_pos_nonneg; lia|]. split; [|reflexivity].
    rewrite <- Z.mul_assoc, <- Z.pow_add_r by lia.
    f_equal. f_equal. lia.
Qed.

Ltac order_by_key W a b :=
  let k := fresh "k" in
  let Hk := fresh "Hk" in
  let Ea := fresh "Ea" in
  let Eb := fresh "Eb" in
  destruct (aligned_pair W a b) as [k [Hk [Ea Eb]]]; [lia | lia |];
  unfold key_lt, key_le; rewrite Ea, Eb;
  destruct (_aligned_address_integers a b) as [this that]; cbn [fst snd];
  rewrite ?orb_true_iff, ?andb_true_iff, ?Z.ltb_lt, ?Z.leb_le, ?Z.eqb_eq;
  nia.

Lemma lt_key (W : Z) (a b : HWAddress) :
  size (cls a) <= W -> size (cls b) <= W ->
  __lt__ a b = true <-> key_lt W a b.
Proof. intros Ha Hb. unfold __lt__. order_by_key W a b. Qed.

Lemma le_key (W : Z) (a b : HWAddress) :
  size (cls a) <= W -> size (cls b) <= W ->
  __le__ a b = true <-> key_le W a b.
Proof. intros Ha Hb. unfold __le__. order_by_key W a b. Qed.

Lemma gt_key (W : Z) (a b : HWAddress) :
  size (cls a) <= W -> size (cls b) <= W ->
  __gt__ a b = true <-> key_lt W b a.
Proof. intros Ha Hb. unfold __gt__. order_by_key W a b. Qed.

Lemma ge_key (W : Z) (a b : HWAddress) :
  size (cls a) <= W -> size (cls b) <= W ->
  __ge__ a b = true <-> key_le W b a.
Proof. intros Ha Hb. unfold __ge__. order_by_key W a b. Qed.

(** Values of one size aligned on one width have equal integers when
    their aligned integers are equal. *)
Lemma aligned_inj (W : Z) (a b : HWAddress) :
  size (cls a) <= W -> size (cls a) = size (cls b) ->
  aligned W a = aligned W b -> _address a = _address b.
Proof.
  unfold aligned. intros Ha Hs. rewrite <- Hs, !Z.shiftl_mul_pow2 by lia.
  intros E. apply Z.mul_reg_r in E; [exact E|].
  apply Z.pow_nonzero; lia.
Qed.

Lemma bool_eq_iff (x y : bool) : (x = true <-> y = true) -> x = y.
Proof. destruct x, y; intuition congruence. Qed.

End Order.

Lemma gt_lt (a b : HWAddress) : __gt__ a b = __lt__ b a.
Proof.
  set (W := Z.max (size (cls a)) (size (cls b))).
  apply bool_eq_iff.
  rewrite (gt_key W a b), (lt_key W b a) by lia. tauto.
Qed.

Lemma ge_le (a b : HWAddress) : __ge__ a b = __le__ b a.
Proof.
  set (W := Z.max (size (cls a)) (size (cls b))).
  apply bool_eq_iff.
  rewrite (ge_key W a b), (le_key W b a) by lia. tauto.
Qed.

Lemma lt_negb_le (a b : HWAddress) : __lt__ a b = negb (__le__ b a).
Proof.
  set (W := Z.max (size (cls a)) (size (cls b))).
  apply bool_eq_iff. rewrite negb_true_iff, <- not_true_iff_false.
  rewrite (lt_key W a b), (le_key W b a) by lia.
  unfold key_lt, key_le. lia.
Qed.

(** The operators of the order are the methods of the left operand,
    whichever method Python calls first. *)
Lemma order_operators (a b : HWAddress) :
  op_lt a b = __lt__ a b /\ op_le a b = __le__ a b
  /\ op_gt a b = __gt__ a b /\ op_ge a b = __ge__ a b.
Proof.
  unfold op_lt, op_le, op_gt, op_ge. destruct (reflected_first a b).
  - rewrite (gt_lt b a), (ge_le b a), (gt_lt a b), (ge_le a b). tauto.
  - tauto.
Qed.

(** C3, as the code has it: [<] is irreflexive and transitive, [<=] is
    total, [a <= b] and [b <= a] together force identical sizes and equal
    integers (which is [a == b] when the two values are of one kind), and
    the four comparisons agree with one another, each being the
    lexicographic comparison of the pairs (aligned integer, size) on any
    common width, whichever of its two methods Python calls first. *)
Theorem C3_total_order (a b c : HWAddress) :
  __lt__ a a = false
  /\ (__lt__ a b = true -> __lt__ b c = true -> __lt__ a c = true)
  /\ (__le__ a b = true \/ __le__ b a = true)
  /\ (__le__ a b = true -> __le__ b a = true ->
      (size (cls a) = size (cls b) /\ _address a = _address b)
      /\ (name (cls a) = name (cls b) -> op_eq a b = true))
  /\ __gt__ a b = __lt__ b a
  /\ __ge__ a b = __le__ b a
  /\ __lt__ a b = negb (__le__ b a)
  /\ __le__ a b
     = (__lt__ a b
        || ((size (cls a) =? size (cls b)) && (_address a =? _address b)))
  /\ (op_lt a b = __lt__ a b /\ op_le a b = __le__ a b
      /\ op_gt a b = __gt__ a b /\ op_ge a b = __ge__ a b)
  /\ (forall W, size (cls a) <= W -> size (cls b) <= W ->
      (__lt__ a b = true <-> key_lt W a b)
      /\ (__le__ a b = true <-> key_le W a b)
      /\ (__gt__ a b = true <-> key_lt W b a)
      /\ (__ge__ a b = true <-> key_le W b a)).
Proof.
  set (W := Z.max (size (cls a)) (Z.max (size (cls b)) (size (cls c)))).
  assert (Ha : size (cls a) <= W) by lia.
  assert (Hb : size (cls b) <= W) by lia.
  assert (Hc : size (cls c) <= W) by lia.
  assert (Hanti : __le__ a b = true -> __le__ b a = true ->
                  size (cls a) = size (cls b) /\ _address a = _address b).
  { rewrite (le_key W a b), (le_key W b a) by assumption.
    unfold key_le. intros H1 H2.
    assert (Hs : size (cls a) = size (cls b)) by lia.
    split; [exact Hs|]. apply (aligned_inj W); [assumption | exact Hs | lia]. }
  repeat split.
  - destruct (__lt__ a a) eqn:E; [|reflexivity].
    apply (lt_key W a a Ha Ha) in E. unfold key_lt in E. lia.
  - rewrite (lt_key W a b), (lt_key W b c), (lt_key W a c) by assumption.
    unfold key_lt. lia.
  - rewrite (le_key W a b), (le_key W b a) by assumption.
    unfold key_le. lia.
  - apply Hanti; assumption.
  - apply Hanti; assumption.
  - intros Hn. destruct (op_eq_same_class a b Hn) as [-> Hi].
    apply eq_spec.
    match goal with
    | Hab : __le__ a b = true, Hba : __le__ b a = true |- _ =>
        pose proof (Hanti Hab Hba)
    end.
    tauto.
  - apply gt_lt.
  - apply ge_le.
  - apply lt_negb_le.
  - apply bool_eq_iff.
    rewrite orb_true_iff, andb_true_iff, !Z.eqb_eq.
    rewrite (lt_key W a b), (le_key W a b) by assumption.
    unfold key_lt, key_le. split.
    + intros [H|[H1 H2]]; [left; now left|].
      destruct (Z.eq_dec (size (cls a)) (size (cls b))) as [Hs|Hs].
      * right. split; [exact Hs|]. apply (aligned_inj W); assumption.
      * left. right. lia.
    + intros [[H|[H1 H2]]|[Hs Hr]]; [now left | right; lia |].
      right. unfold aligned. rewrite Hs, Hr. lia.
  - apply order_operators.
  - apply order_operators.
  - apply order_operators.
  - apply order_operators.
  - apply lt_key; assumption.
  - apply lt_key; assumption.
  - apply le_key; assumption.
  - apply le_key; assumption.
  - apply gt_key; assumption.
  - apply gt_key; assumption.
  - apply ge_key; assumption.
  - apply ge_key; assumption.
Qed.

Lemma C3_total_order_witness :
  __lt__ (mkHWAddress OUI 0x010203) (mkHWAddress CDI32 0x01020300) = true
  /\ __lt__ (mkHWAddress OUI 0x010203) (mkHWAddress EUI48 0x010203040506) = true.
Proof.
  split; [reflexivity|].
  apply (proj1 (proj2 (C3_total_order
                         (mkHWAddress OUI 0x010203)
                         (mkHWAddress CDI32 0x01020300)
                         (mkHWAddress EUI48 0x010203040506))));
    reflexivity.
Defined.

(** C3 as stated fails on antisymmetry: a 24-bit value of [OUI] and a
    24-bit value of a class of its own with the same integer are below one
    another, are two values, and do not compare equal. *)
Lemma C3_counterexample :
  let a := mkHWAddress OUI 0x010203 in
  let b := mkHWAddress (Class 24 ["xxxxxx"]) 0x010203 in
  from_integer OUI 0x010203 = OK a
  /\ from_integer (Class 24 ["xxxxxx"]) 0x010203 = OK b
  /\ __le__ a b = true /\ __le__ b a = true
  /\ a <> b /\ op_eq a b = false /\ op_eq b a = false.
Proof. cbv zeta. repeat split; try reflexivity. discriminate. Qed.

(** ** Bit strings *)

Section BitStrings.

Lemma bits_value_range (l : list bool) :
  0 <= bits_value l < 2 ^ Z.of_nat (List.length l).
Proof.
  induction l as [|b l IH]; cbn [bits_value List.length].
  - cbn. lia.
  - rewrite Nat2Z.inj_succ, Z.pow_succ_r by lia.
    destruct b; cbn [Z.b2z]; lia.
Qed.

Lemma bits_value_app (l1 l2 : list bool) :
  bits_value (l1 ++ l2)
  = bits_value l1 * 2 ^ Z.of_nat (List.length l2) + bits_value l2.
Proof.
  induction l1 as [|b l1 IH]; cbn [bits_value app List.length].
  - lia.
  - rewrite IH, length_app, Nat2Z.inj_add, Z.pow_add_r by lia. ring.
Qed.

Lemma bits_value_zeros (k : nat) : bits_value (repeat false k) = 0.
Proof. induction k; cbn [repeat bits_value Z.b2z]; lia. Qed.

Lemma bits_ltb_value (l1 l2 : list bool) :
  List.length l1 = List.length l2 ->
  bits_ltb l1 l2 = (bits_value l1 <? bits_value l2).
Proof.
  revert l2. induction l1 as [|b1 l1 IH]; intros [|b2 l2] Hlen;
    try discriminate Hlen.
  - reflexivity.
  - cbn [bits_ltb bits_value]. injection Hlen as Hlen.
    pose proof (bits_value_range l1) as R1.
    pose proof (bits_value_range l2) as R2.
    rewrite Hlen in R1 |- *.
    destruct b1, b2; cbn [Bool.eqb negb andb Z.b2z].
    + rewrite (IH l2 Hlen).
      destruct (Z.ltb_spec (bits_value l1) (bits_value l2));
        destruct (Z.ltb_spec (1 * 2 ^ Z.of_nat (List.length l2) + bits_value l1)
                    (1 * 2 ^ Z.of_nat (List.length l2) + bits_value l2)); lia.
    + symmetry. apply Z.ltb_ge. lia.
    + symmetry. apply Z.ltb_lt. lia.
    + rewrite (IH l2 Hlen). reflexivity.
Qed.

Lemma bits_value_inj (l1 l2 : list bool) :
  List.length l1 = List.length l2 ->
  bits_value l1 = bits_value l2 -> l1 = l2.
Proof.
  revert l2. induction l1 as [|b1 l1 IH]; intros [|b2 l2] Hlen;
    try discriminate Hlen; [reflexivity|].
  cbn [bits_value]. injection Hlen as Hlen.
  pose proof (bits_value_range l1) as R1.
  pose proof (bits_value_range l2) as R2.
  rewrite Hlen in R1 |- *. intros E.
  destruct b1, b2; cbn [Z.b2z] in E; try lia; f_equal; apply IH; lia.
Qed.

Lemma _bits_loop_length (k : nat) (n : Z) : List.length (_bits_loop k n) = k.
Proof. revert n. induction k; intros n; cbn; [reflexivity | now rewrite IHk]. Qed.

(** The loop of [_bits] reads the [k] low bits of the integer. *)
Lemma _bits_loop_value (k : nat) (n : Z) :
  bits_value (rev (_bits_loop k n)) = n mod 2 ^ Z.of_nat k.
Proof.
  revert n. induction k as [|k IH]; intros n.
  - cbn. now rewrite Z.mod_1_r.
  - cbn [_bits_loop rev]. rewrite bits_value_app, IH.
    cbn [bits_value List.length]. rewrite <- Z.bit0_odd, Z.bit0_mod.
    rewrite Z.shiftr_div_pow2 by lia.
    change (2 ^ 1) with 2. change (2 ^ Z.of_nat 0) with 1. change (2 ^ Z.of_nat 1) with 2.
    replace (2 ^ Z.of_nat (S k)) with (2 * 2 ^ Z.of_nat k)
      by (rewrite Nat2Z.inj_succ, Z.pow_succ_r by lia; reflexivity).
    rewrite (Z.rem_mul_r n 2 (2 ^ Z.of_nat k)) by lia. lia.
Qed.

Lemma _bits_length (a : HWAddress) :
  0 <= size (cls a) -> Z.of_nat (List.length (_bits a)) = size (cls a).
Proof.
  intros Hs. unfold _bits. rewrite length_rev, _bits_loop_length. lia.
Qed.

Lemma _bits_value (a : HWAddress) : valid a -> bits_value (_bits a) = _address a.
Proof.
  intros [Hs Hr]. unfold _bits.
  rewrite _bits_loop_value, Z2Nat.id by lia. apply Z.mod_small, Hr.
Qed.

Lemma left_aligned_bits_length (w : Z) (a : HWAddress) :
  0 <= size (cls a) <= w ->
  List.length (left_aligned_bits w a) = Z.to_nat w.
Proof.
  intros Hs. unfold left_aligned_bits.
  pose proof (_bits_length a (proj1 Hs)).
  rewrite length_app, repeat_length. lia.
Qed.

Lemma left_aligned_bits_value (w : Z) (a : HWAddress) :
  valid a -> size (cls a) <= w ->
  bits_value (left_aligned_bits w a) = aligned w a.
Proof.
  intros Hv Hw. unfold left_aligned_bits, aligned.
  rewrite bits_value_app, bits_value_zeros, repeat_length, _bits_value by exact Hv.
  destruct Hv as [Hs _].
  rewrite Z2Nat.id, Z.shiftl_mul_pow2 by lia. lia.
Qed.

End BitStrings.

(** [<] is the order of the bit strings aligned on their first bit. *)
Lemma lt_left_aligned (a b : HWAddress) :
  valid a -> valid b ->
  let w := Z.max (size (cls a)) (size (cls b)) in
  __lt__ a b = true
  <-> bits_ltb (left_aligned_bits w a) (left_aligned_bits w b) = true
      \/ (left_aligned_bits w a = left_aligned_bits w b
          /\ size (cls a) < size (cls b)).
Proof.
  intros Ha Hb w.
  assert (Hwa : size (cls a) <= w) by lia.
  assert (Hwb : size (cls b) <= w) by lia.
  assert (Hlen : List.length (left_aligned_bits w a)
                 = List.length (left_aligned_bits w b)).
  { destruct Ha as [Ha _], Hb as [Hb _].
    rewrite !left_aligned_bits_length by lia. reflexivity. }
  rewrite (lt_key w a b Hwa Hwb). unfold key_lt.
  rewrite (bits_ltb_value _ _ Hlen), Z.ltb_lt.
  rewrite !left_aligned_bits_value by assumption.
  split; (intros [H|[H1 H2]]; [now left | right; split; [|exact H2]]).
  - apply bits_value_inj; [exact Hlen|].
    now rewrite !left_aligned_bits_value by assumption.
  - rewrite <- !left_aligned_bits_value by assumption. now rewrite H1.
Qed.

(** C2, as the code has it: [a < b] holds exactly when the bit string of
    [a], aligned on its first bit and extended by zeros after its last bit
    to the larger of the two sizes, is lexicographically below that of [b],
    or the two extended bit strings are the same and [a] is the narrower;
    the alignment leaves the integer of the wider value unchanged and shifts
    the integer of the narrower one left by the difference of the sizes. *)
Theorem C2_order_by_bit_strings (a b : HWAddress) :
  valid a -> valid b ->
  let w := Z.max (size (cls a)) (size (cls b)) in
  (__lt__ a b = true
   <-> bits_ltb (left_aligned_bits w a) (left_aligned_bits w b) = true
       \/ (left_aligned_bits w a = left_aligned_bits w b
           /\ size (cls a) < size (cls b)))
  /\ _aligned_address_integers a b
     = (Z.shiftl (_address a) (w - size (cls a)),
        Z.shiftl (_address b) (w - size (cls b)))
  /\ (size (cls b) <= size (cls a) ->
      fst (_aligned_address_integers a b) = _address a)
  /\ (size (cls a) <= size (cls b) ->
      snd (_aligned_address_integers a b) = _address b).
Proof.
  intros Ha Hb w.
  assert (Hpair : _aligned_address_integers a b
                  = (Z.shiftl (_address a) (w - size (cls a)),
                     Z.shiftl (_address b) (w - size (cls b)))).
  { unfold _aligned_address_integers, __int__.
    destruct (Z.ltb_spec (size (cls b)) (size (cls a))).
    - replace (w - size (cls a)) with 0 by lia.
      replace (w - size (cls b)) with (size (cls a) - size (cls b)) by lia.
      now rewrite Z.shiftl_0_r.
    - replace (w - size (cls b)) with 0 by lia.
      replace (w - size (cls a)) with (size (cls b) - size (cls a)) by lia.
      now rewrite Z.shiftl_0_r. }
  split; [|split; [exact Hpair|split]].
  - apply lt_left_aligned; assumption.
  - intros Hs. rewrite Hpair. cbn [fst].
    replace (w - size (cls a)) with 0 by lia. apply Z.shiftl_0_r.
  - intros Hs. rewrite Hpair. cbn [snd].
    replace (w - size (cls b)) with 0 by lia. apply Z.shiftl_0_r.
Qed.

Lemma C2_order_by_bit_strings_witness :
  valid (mkHWAddress OUI 0x800000)
  /\ valid (mkHWAddress EUI48 0x000000800001)
  /\ _aligned_address_integers (mkHWAddress OUI 0x800000)
       (mkHWAddress EUI48 0x000000800001)
     = (0x800000000000, 0x000000800001).
Proof.
  assert (Ha : valid (mkHWAddress OUI 0x800000)) by (unfold valid; cbn; lia).
  assert (Hb : valid (mkHWAddress EUI48 0x000000800001)) by (unfold valid; cbn; lia).
  split; [exact Ha|]. split; [exact Hb|].
  exact (proj1 (proj2 (C2_order_by_bit_strings _ _ Ha Hb))).
Defined.

(** C2 as stated fails: with zeros put before the first bit, the 24-bit
    value [800000] would sort before the 48-bit value [000000800001], and
    it does not. *)
Lemma C2_counterexample :
  ~ (forall a b : HWAddress,
       valid a -> valid b ->
       let w := Z.max (size (cls a)) (size (cls b)) in
       __lt__ a b = true
       <-> bits_ltb (left_zero_padded_bits w a) (left_zero_padded_bits w b) = true
           \/ (left_zero_padded_bits w a = left_zero_padded_bits w b
               /\ size (cls a) < size (cls b))).
Proof.
  intros H.
  assert (Ha : valid (mkHWAddress OUI 0x800000)) by (unfold valid; cbn; lia).
  assert (Hb : valid (mkHWAddress EUI48 0x000000800001)) by (unfold valid; cbn; lia).
  destruct (H _ _ Ha Hb) as [_ H1].
  assert (E : __lt__ (mkHWAddress OUI 0x800000)
                (mkHWAddress EUI48 0x000000800001) = true).
  { apply H1. left. vm_compute. reflexivity. }
  vm_compute in E. discriminate E.
Qed.

(** ** The order of the test suite

    [test_ordering] compares the bit strings of the two values as Python
    strings, without any padding: a proper prefix is smaller. *)

Section TestOrdering.

Lemma bits_ltb_zeros_l (l : list bool) :
  bits_ltb (repeat false (List.length l)) l = true
  \/ repeat false (List.length l) = l.
Proof.
  induction l as [|b l IH]; [now right|].
  cbn [List.length repeat bits_ltb]. destruct b; cbn [Bool.eqb negb andb].
  - now left.
  - destruct IH as [IH|IH]; [now left | right; now rewrite IH at 1].
Qed.

Lemma bits_ltb_zeros_r (l : list bool) :
  bits_ltb l (repeat false (List.length l)) = false.
Proof.
  induction l as [|b l IH]; [reflexivity|].
  cbn [List.length repeat bits_ltb]. destruct b; cbn [Bool.eqb negb andb];
    [reflexivity | exact IH].
Qed.

(** The order of Python sequences is the order of the sequences aligned on
    their first element, the shorter one first on a tie. *)
Lemma bits_ltb_padded (l1 l2 : list bool) :
  let n1 := List.length l1 in
  let n2 := List.length l2 in
  bits_ltb l1 l2 = true
  <-> bits_ltb (l1 ++ repeat false (Nat.max n1 n2 - n1))
        (l2 ++ repeat false (Nat.max n1 n2 - n2)) = true
      \/ (l1 ++ repeat false (Nat.max n1 n2 - n1)
          = l2 ++ repeat false (Nat.max n1 n2 - n2)
          /\ (n1 < n2)%nat).
Proof.
  cbv zeta. revert l2. induction l1 as [|b1 l1 IH]; intros [|b2 l2].
  - cbn. split; [discriminate | intros [H|[_ H]]; [discriminate | lia]].
  - cbn [List.length Nat.max app]. rewrite Nat.sub_0_r, Nat.sub_diag.
    cbn [repeat]. rewrite app_nil_r. change (S (List.length l2)) with (List.length (b2 :: l2)).
    split; [intros _ | reflexivity].
    destruct (bits_ltb_zeros_l (b2 :: l2)) as [H|H]; [now left|].
    right. split; [exact H | cbn; lia].
  - cbn [List.length Nat.max app]. rewrite Nat.sub_0_r, Nat.sub_diag.
    cbn [repeat]. rewrite app_nil_r.
    change (S (List.length l1)) with (List.length (b1 :: l1)).
    rewrite bits_ltb_zeros_r. cbn [bits_ltb].
    split; [discriminate | intros [H|[_ H]]; [discriminate | cbn in H; lia]].
  - cbn [List.length Nat.max Nat.sub app bits_ltb].
    destruct b1, b2; cbn [Bool.eqb negb andb].
    + rewrite (IH l2). split; (intros [H|[H1 H2]]; [now left | right]).
      * split; [now rewrite H1 | lia].
      * split; [now injection H1 | lia].
    + split; [discriminate | intros [H|[H _]]; discriminate].
    + split; [now left | reflexivity].
    + rewrite (IH l2). split; (intros [H|[H1 H2]]; [now left | right]).
      * split; [now rewrite H1 | lia].
      * split; [now injection H1 | lia].
Qed.

Lemma left_aligned_bits_padded (a b : HWAddress) :
  0 <= size (cls a) -> 0 <= size (cls b) ->
  left_aligned_bits (Z.max (size (cls a)) (size (cls b))) a
  = _bits a
    ++ repeat false
         (Nat.max (List.length (_bits a)) (List.length (_bits b))
          - List.length (_bits a)).
Proof.
  intros Ha Hb. unfold left_aligned_bits. f_equal. f_equal.
  pose proof (_bits_length a Ha). pose proof (_bits_length b Hb). lia.
Qed.

(** [<] is Python's order on the bit strings. *)
Lemma lt_is_bits_ltb (x y : HWAddress) :
  valid x -> valid y -> __lt__ x y = bits_ltb (_bits x) (_bits y).
Proof.
  intros Hx Hy. apply bool_eq_iff.
  rewrite (lt_left_aligned x y Hx Hy), (bits_ltb_padded (_bits x) (_bits y)).
  pose proof (_bits_length x (proj1 Hx)) as Lx.
  pose proof (_bits_length y (proj1 Hy)) as Ly.
  rewrite (left_aligned_bits_padded x y (proj1 Hx) (proj1 Hy)).
  replace (left_aligned_bits (Z.max (size (cls x)) (size (cls y))) y)
    with (_bits y
          ++ repeat false
               (Nat.max (List.length (_bits x)) (List.length (_bits y))
                - List.length (_bits y))).
  - split; (intros [H|[H1 H2]]; [now left | right; split; [exact H1 | lia]]).
  - rewrite Z.max_comm, Nat.max_comm.
    symmetry. apply left_aligned_bits_padded; [exact (proj1 Hy) | exact (proj1 Hx)].
Qed.

(** X21: The assertions of [test_ordering]: each comparison of two values is
    the comparison of their bit strings. *)
Theorem test_ordering (a b : HWAddress) :
  valid a -> valid b ->
  __lt__ a b = bits_ltb (_bits a) (_bits b)
  /\ __le__ a b = negb (bits_ltb (_bits b) (_bits a))
  /\ __gt__ a b = bits_ltb (_bits b) (_bits a)
  /\ __ge__ a b = negb (bits_ltb (_bits a) (_bits b)).
Proof.
  intros Ha Hb. repeat split.
  - apply lt_is_bits_ltb; assumption.
  - rewrite <- (lt_is_bits_ltb b a Hb Ha), (lt_negb_le b a).
    now rewrite negb_involutive.
  - rewrite gt_lt. apply lt_is_bits_ltb; assumption.
  - rewrite ge_le, <- (lt_is_bits_ltb a b Ha Hb), (lt_negb_le a b).
    now rewrite negb_involutive.
Qed.

Lemma test_ordering_witness :
  valid (mkHWAddress OUI 0x800000) /\ valid (mkHWAddress EUI48 0x000000800001)
  /\ __lt__ (mkHWAddress OUI 0x800000) (mkHWAddress EUI48 0x000000800001)
     = bits_ltb (_bits (mkHWAddress OUI 0x800000))
         (_bits (mkHWAddress EUI48 0x000000800001)).
Proof.
  assert (Ha : valid (mkHWAddress OUI 0x800000)) by (unfold valid; cbn; lia).
  assert (Hb : valid (mkHWAddress EUI48 0x000000800001)) by (unfold valid; cbn; lia).
  split; [exact Ha|]. split; [exact Hb|].
  exact (proj1 (test_ordering _ _ Ha Hb)).
Defined.

End TestOrdering.

(** ** Order of characters and strings *)

Section StringOrder.

Lemma ascii_ltb_N (a b : ascii) :
  Ascii.ltb a b = (N_of_ascii a <? N_of_ascii b)%N.
Proof.
  unfold Ascii.ltb, Ascii.compare, N.ltb.
  destruct (N_of_ascii a ?= N_of_ascii b)%N; reflexivity.
Qed.

Lemma ascii_ltb_irrefl (a : ascii) : Ascii.ltb a a = false.
Proof. rewrite ascii_ltb_N. apply N.ltb_irrefl. Qed.

Lemma ascii_between (a b c : ascii) :
  Ascii.ltb b a = false -> Ascii.ltb c b = false -> Ascii.ltb a c = false ->
  a = b.
Proof.
  rewrite !ascii_ltb_N, !N.ltb_ge. intros H1 H2 H3.
  rewrite <- (ascii_N_embedding a), <- (ascii_N_embedding b).
  f_equal. lia.
Qed.

Lemma ascii_ltb_le_trans (a b c : ascii) :
  Ascii.ltb b a = false -> Ascii.ltb c b = false -> Ascii.ltb c a = false.
Proof. rewrite !ascii_ltb_N, !N.ltb_ge. lia. Qed.

Lemma string_ltb_leb (s t : string) : String.ltb t s = negb (String.leb s t).
Proof.
  unfold String.ltb, String.leb. rewrite (String.compare_antisym s t).
  destruct (String.compare t s); reflexivity.
Qed.

Lemma string_leb_refl (s : string) : String.leb s s = true.
Proof.
  unfold String.leb. induction s as [|c s IH]; cbn; [reflexivity|].
  unfold Ascii.compare. rewrite N.compare_refl. exact IH.
Qed.

Lemma string_leb_trans (s t u : string) :
  String.leb s t = true -> String.leb t u = true -> String.leb s u = true.
Proof.
  unfold String.leb. revert t u.
  induction s as [|a s IH]; intros [|b t] [|c u]; cbn; try easy.
  unfold Ascii.compare.
  destruct (N.compare_spec (N_of_ascii a) (N_of_ascii b));
    destruct (N.compare_spec (N_of_ascii b) (N_of_ascii c));
    destruct (N.compare_spec (N_of_ascii a) (N_of_ascii c));
    try lia; try easy.
  apply IH.
Qed.

Lemma char_at_cons_0 (c : ascii) (s : string) : char_at (String c s) 0 = c.
Proof. reflexivity. Qed.

Lemma char_at_cons_S (c : ascii) (s : string) (m : nat) :
  char_at (String c s) (S m) = char_at s m.
Proof. reflexivity. Qed.

(** Two ordered strings that agree before position [i] are ordered by
    their characters at [i]. *)
Lemma leb_prefix_char (i : nat) (s t : string) :
  String.leb s t = true ->
  (forall m, (m < i)%nat -> char_at s m = char_at t m) ->
  (i < String.length s)%nat -> (i < String.length t)%nat ->
  Ascii.ltb (char_at t i) (char_at s i) = false.
Proof.
  revert s t. induction i as [|i IH]; intros [|a s] [|b t] Hle Hpre Hs Ht;
    cbn [String.length] in Hs, Ht; try lia.
  - rewrite !char_at_cons_0. revert Hle.
    unfold String.leb, Ascii.ltb. cbn [String.compare].
    rewrite (Ascii.compare_antisym a b).
    destruct (Ascii.compare b a); cbn; congruence.
  - rewrite !char_at_cons_S.
    assert (E : a = b) by (apply (Hpre 0%nat); lia). subst b.
    apply IH; try lia.
    + revert Hle. unfold String.leb. cbn [String.compare].
      unfold Ascii.compare. now rewrite N.compare_refl.
    + intros m Hm. apply (Hpre (S m)). lia.
Qed.

(** Strings of one length with the same characters are the same. *)
Lemma string_ext (n : nat) (s t : string) :
  String.length s = n -> String.length t = n ->
  (forall m, (m < n)%nat -> char_at s m = char_at t m) -> s = t.
Proof.
  revert s t. induction n as [|n IH]; intros [|a s] [|b t] Hs Ht H;
    try discriminate; [reflexivity|].
  f_equal.
  - apply (H 0%nat). lia.
  - apply IH; [now injection Hs | now injection Ht |].
    intros m Hm. apply (H (S m)). lia.
Qed.

End StringOrder.

(** ** The dictionary of candidates and its sorted items *)

Section Candidates.

Lemma dict_get_None (d : dict) (t : string) :
  dict_get d t = None <-> ~ In t (map fst d).
Proof.
  induction d as [|[k v] d IH]; cbn [dict_get map fst In]; [tauto|].
  destruct (String.eqb_spec t k) as [E|E].
  - split; [discriminate | intros H; exfalso; apply H; left; congruence].
  - rewrite IH. split; [intros H [H1|H1]; [congruence | tauto] | tauto].
Qed.

Lemma dict_get_In (d : dict) (t : string) (k : Kind) :
  NoDup (map fst d) -> (dict_get d t = Some k <-> In (t, k) d).
Proof.
  induction d as [|[key v] d IH]; cbn [dict_get map fst In]; intros Hnd.
  - split; [discriminate | tauto].
  - inversion Hnd as [|? ? Hnotin Hnd']; subst.
    destruct (String.eqb_spec t key) as [E|E].
    + subst key. split.
      * intros H. left. congruence.
      * intros [H|H]; [congruence|].
        exfalso. apply Hnotin. apply (in_map fst) in H. exact H.
    + rewrite (IH Hnd'). split; [tauto | intros [H|H]; [congruence | exact H]].
Qed.

Lemma dict_get_snoc (d : dict) (f t : string) (k : Kind) :
  dict_get (d ++ [(f, k)]) t
  = match dict_get d t with
    | Some x => Some x
    | None => if String.eqb t f then Some k else None
    end.
Proof.
  induction d as [|[key v] d IH]; cbn [dict_get app]; [reflexivity|].
  destruct (String.eqb t key); [reflexivity | exact IH].
Qed.

Lemma dict_get_setdefault (d : dict) (f t : string) (k : Kind) :
  dict_get (setdefault d f k) t
  = match dict_get d t with
    | Some x => Some x
    | None => if String.eqb t f then Some k else None
    end.
Proof.
  unfold setdefault. destruct (dict_get d f) as [x|] eqn:E.
  - destruct (dict_get d t) eqn:Et; [reflexivity|].
    destruct (String.eqb_spec t f); [congruence | reflexivity].
  - apply dict_get_snoc.
Qed.

Lemma setdefault_NoDup (d : dict) (f : string) (k : Kind) :
  NoDup (map fst d) -> NoDup (map fst (setdefault d f k)).
Proof.
  intros Hnd. unfold setdefault. destruct (dict_get d f) eqn:E; [exact Hnd|].
  apply dict_get_None in E. rewrite map_app. cbn [map fst].
  apply NoDup_app; [exact Hnd | repeat constructor; intros [] |].
  intros x Hx [Hf|[]]. congruence.
Qed.

Lemma setdefault_lengths (len : nat) (d : dict) (f : string) (k : Kind) :
  String.length f = len ->
  Forall (fun p => String.length (fst p) = len) d ->
  Forall (fun p => String.length (fst p) = len) (setdefault d f k).
Proof.
  intros Hf Hd. unfold setdefault. destruct (dict_get d f); [exact Hd|].
  apply Forall_app. split; [exact Hd | now constructor].
Qed.

(** What one class adds to the dictionary. *)
Lemma collect_formats_get (len : nat) (k : Kind) (t : string) (d : dict) :
  dict_get (collect_formats len d k) t
  = match dict_get d t with
    | Some x => Some x
    | None => if offers len t k then Some k else None
    end.
Proof.
  unfold collect_formats, offers. revert d.
  induction (formats k) as [|f fs IH]; intros d; cbn [fold_left existsb].
  - destruct (dict_get d t); reflexivity.
  - rewrite IH. clear IH.
    destruct (Nat.eqb_spec (String.length f) len) as [Hf|Hf].
    + rewrite dict_get_setdefault. destruct (dict_get d t); [reflexivity|].
      destruct (String.eqb_spec t f) as [E|E]; cbn [orb]; [|reflexivity].
      subst t. rewrite Hf, Nat.eqb_refl, andb_true_r.
      destruct (existsb (String.eqb f) fs); reflexivity.
    + destruct (dict_get d t); [reflexivity|].
      destruct (String.eqb_spec t f) as [E|E]; cbn [orb]; [|reflexivity].
      subst t. apply Nat.eqb_neq in Hf. rewrite Hf, !andb_false_r. reflexivity.
Qed.

Lemma collect_formats_invariant (len : nat) (k : Kind) (d : dict) :
  NoDup (map fst d) /\ Forall (fun p => String.length (fst p) = len) d ->
  NoDup (map fst (collect_formats len d k))
  /\ Forall (fun p => String.length (fst p) = len) (collect_formats len d k).
Proof.
  unfold collect_formats. revert d.
  induction (formats k) as [|f fs IH]; intros d [Hnd Hlen]; cbn [fold_left].
  - split; assumption.
  - apply IH. destruct (Nat.eqb_spec (String.length f) len) as [Hf|Hf].
    + split; [apply setdefault_NoDup | apply setdefault_lengths]; assumption.
    + split; assumption.
Qed.

(** The dictionary maps a format string of the length of the input to the
    first class that offers it. *)
Lemma collect_get (len : nat) (classes : list Kind) (t : string) :
  dict_get (collect len classes) t = find (offers len t) classes.
Proof.
  unfold collect.
  enough (H : forall d,
             dict_get (fold_left (collect_formats len) classes d) t
             = match dict_get d t with
               | Some x => Some x
               | None => find (offers len t) classes
               end) by apply (H []).
  induction classes as [|k classes IH]; intros d; cbn [fold_left find].
  - destruct (dict_get d t); reflexivity.
  - rewrite IH, collect_formats_get.
    destruct (dict_get d t); [reflexivity|].
    destruct (offers len t k); reflexivity.
Qed.

Lemma collect_invariant (len : nat) (classes : list Kind) :
  NoDup (map fst (collect len classes))
  /\ Forall (fun p => String.length (fst p) = len) (collect len classes).
Proof.
  unfold collect.
  enough (H : forall d,
             NoDup (map fst d) /\ Forall (fun p => String.length (fst p) = len) d ->
             NoDup (map fst (fold_left (collect_formats len) classes d))
             /\ Forall (fun p => String.length (fst p) = len)
                  (fold_left (collect_formats len) classes d)).
  { apply H. split; constructor. }
  induction classes as [|k classes IH]; intros d Hd; cbn [fold_left].
  - exact Hd.
  - apply IH, collect_formats_invariant, Hd.
Qed.

Lemma insert_sorted_perm (p : string * Kind) (l : dict) :
  Permutation (insert_sorted p l) (p :: l).
Proof.
  induction l as [|q l IH]; cbn [insert_sorted]; [reflexivity|].
  destruct (String.ltb (fst q) (fst p)); [|reflexivity].
  rewrite IH. apply perm_swap.
Qed.

Lemma sorted_perm (d : dict) : Permutation (sorted d) d.
Proof.
  induction d as [|p d IH]; cbn [sorted fold_right]; [reflexivity|].
  fold (sorted d). rewrite insert_sorted_perm. now constructor.
Qed.

Lemma insert_sorted_ordered (p : string * Kind) (l : dict) :
  StronglySorted entry_le l -> StronglySorted entry_le (insert_sorted p l).
Proof.
  induction l as [|q l IH]; cbn [insert_sorted]; intros Hs.
  - repeat constructor.
  - inversion Hs as [|? ? Hs' Hall]; subst.
    destruct (String.ltb (fst q) (fst p)) eqn:E.
    + constructor; [apply IH, Hs'|].
      rewrite Forall_forall in *. intros x Hx.
      apply (Permutation_in _ (insert_sorted_perm p l)) in Hx.
      destruct Hx as [Hx|Hx]; [subst x | now apply Hall].
      unfold entry_le, String.leb. unfold String.ltb in E.
      destruct (String.compare (fst q) (fst p)); congruence.
    + assert (Hpq : entry_le p q).
      { unfold entry_le. rewrite string_ltb_leb in E.
        now apply negb_false_iff in E. }
      constructor; [exact Hs|]. constructor; [exact Hpq|].
      rewrite Forall_forall in *. intros x Hx.
      unfold entry_le in *. eapply string_leb_trans; [exact Hpq | now apply Hall].
Qed.

Lemma sorted_ordered (d : dict) : StronglySorted entry_le (sorted d).
Proof.
  induction d as [|p d IH]; cbn [sorted fold_right]; [constructor|].
  apply insert_sorted_ordered, IH.
Qed.

Lemma ordered_nth (l : dict) (j1 j2 : nat) (p q : string * Kind) :
  StronglySorted entry_le l -> (j1 <= j2)%nat ->
  nth_error l j1 = Some p -> nth_error l j2 = Some q -> entry_le p q.
Proof.
  intros Hs. revert j1 j2. induction Hs as [|x l Hs IH Hall]; intros j1 j2 Hj H1 H2.
  - destruct j1; discriminate.
  - destruct j1 as [|j1], j2 as [|j2]; cbn [nth_error] in H1, H2; try lia.
    + injection H1 as <-. injection H2 as <-. apply string_leb_refl.
    + injection H1 as <-. rewrite Forall_forall in Hall.
      apply Hall. eapply nth_error_In, H2.
    + apply (IH j1 j2); [lia | assumption | assumption].
Qed.

(** Sorting does not change what the dictionary maps a key to. *)
Lemma sorted_get (d : dict) (t : string) :
  NoDup (map fst d) -> dict_get (sorted d) t = dict_get d t.
Proof.
  intros Hnd.
  assert (Hnd' : NoDup (map fst (sorted d))).
  { eapply Permutation_NoDup; [|exact Hnd].
    apply Permutation_map, Permutation_sym, sorted_perm. }
  destruct (dict_get d t) as [k|] eqn:E.
  - apply dict_get_In; [exact Hnd'|].
    apply (Permutation_in _ (Permutation_sym (sorted_perm d))).
    now apply dict_get_In.
  - apply dict_get_None. apply dict_get_None in E. intros H. apply E.
    eapply Permutation_in; [|exact H]. apply Permutation_map, sorted_perm.
Qed.

End Candidates.

(** ** The window of candidates *)

Section Window.

Variable candidates : dict.
Variable index : nat.
Variable character : ascii.

(** The first loop stops in the window, has skipped smaller characters
    only, and stops on a character that is not smaller. *)
Lemma advance_start_spec (fuel start end_ : nat) :
  (start <= end_)%nat -> (end_ - start <= fuel)%nat ->
  let start' := advance_start fuel candidates index character start end_ in
  (start <= start' <= end_)%nat
  /\ (forall j, (start <= j < start')%nat ->
        Ascii.ltb (template_char candidates j index) character = true)
  /\ ((start' < end_)%nat ->
      Ascii.ltb (template_char candidates start' index) character = false).
Proof.
  revert start. induction fuel as [|fuel IH]; intros start Hse Hfuel;
    cbn [advance_start].
  - repeat split; try lia; intros; (lia || assumption).
  - destruct (Nat.ltb_spec start end_) as [Hlt|Hge]; cbn [andb].
    + destruct (Ascii.ltb (template_char candidates start index) character) eqn:E.
      * destruct (IH (S start)) as [H1 [H2 H3]]; [lia | lia |].
        repeat split; try lia; [|exact H3].
        intros j Hj. destruct (Nat.eq_dec j start) as [->|Hne]; [exact E|].
        apply H2. lia.
      * repeat split; try lia; intros; (lia || assumption).
    + repeat split; try lia; intros; (lia || assumption).
Qed.

Lemma retreat_end_spec (fuel start end_ : nat) :
  (start <= end_)%nat -> (end_ - start <= fuel)%nat ->
  let end' := retreat_end fuel candidates index character start end_ in
  (start <= end' <= end_)%nat
  /\ (forall j, (end' <= j < end_)%nat ->
        Ascii.ltb character (template_char candidates j index) = true)
  /\ ((start < end')%nat ->
      Ascii.ltb character (template_char candidates (end' - 1) index) = false).
Proof.
  revert end_. induction fuel as [|fuel IH]; intros end_ Hse Hfuel;
    cbn [retreat_end].
  - repeat split; try lia; intros; (lia || assumption).
  - destruct (Nat.ltb_spec start end_) as [Hlt|Hge]; cbn [andb].
    + destruct (Ascii.ltb character (template_char candidates (end_ - 1) index)) eqn:E.
      * destruct (IH (end_ - 1)%nat) as [H1 [H2 H3]]; [lia | lia |].
        repeat split; try lia; [|exact H3].
        intros j Hj. destruct (Nat.eq_dec j (end_ - 1)) as [->|Hne]; [exact E|].
        apply H2. lia.
      * repeat split; try lia; intros; (lia || assumption).
    + repeat split; try lia; intros; (lia || assumption).
Qed.

End Window.

Section Narrowing.

Variable candidates : dict.
Variable length : nat.
Variable t : string.

Hypothesis candidates_ordered : StronglySorted entry_le candidates.
Hypothesis candidates_lengths :
  Forall (fun p => String.length (fst p) = length) candidates.

Lemma template_char_entry (j : nat) :
  (j < List.length candidates)%nat ->
  exists f k, nth_error candidates j = Some (f, k)
              /\ String.length f = length
              /\ forall m, template_char candidates j m = char_at f m.
Proof.
  intros Hj. destruct (nth_error candidates j) as [[f k]|] eqn:E.
  - exists f, k. split; [reflexivity|]. split.
    + rewrite Forall_forall in candidates_lengths.
      apply (candidates_lengths (f, k)). eapply nth_error_In, E.
    + intros m. unfold template_char. now rewrite E.
  - apply nth_error_None in E. lia.
Qed.

(** Among candidates that agree before [i], the characters at [i] grow
    with the position in the sorted list. *)
Lemma template_char_monotone (i j1 j2 : nat) :
  (i < length)%nat -> (j1 <= j2 < List.length candidates)%nat ->
  (forall m, (m < i)%nat ->
     template_char candidates j1 m = template_char candidates j2 m) ->
  Ascii.ltb (template_char candidates j2 i) (template_char candidates j1 i) = false.
Proof.
  intros Hi Hj Hpre.
  destruct (template_char_entry j1) as [f1 [k1 [E1 [L1 C1]]]]; [lia|].
  destruct (template_char_entry j2) as [f2 [k2 [E2 [L2 C2]]]]; [lia|].
  rewrite C1, C2. apply leb_prefix_char; try lia.
  - apply (ordered_nth candidates j1 j2 (f1, k1) (f2, k2));
      [exact candidates_ordered | lia | exact E1 | exact E2].
  - intros m Hm. rewrite <- C1, <- C2. apply Hpre, Hm.
Qed.

(** One round of narrowing keeps the invariant, one character further. *)
Lemma narrowing_step (i start end_ : nat) :
  (i < length)%nat ->
  window_inv candidates t i start end_ ->
  let c := char_at t i in
  let start' := advance_start (end_ - start) candidates i c start end_ in
  let end' := retreat_end (end_ - start') candidates i c start' end_ in
  window_inv candidates t (S i) start' end'.
Proof.
  intros Hi [Hbounds Hwin] c start' end'.
  destruct (advance_start_spec candidates i c (end_ - start) start end_)
    as [A1 [A2 A3]]; [lia | lia |].
  fold start' in A1, A2, A3.
  destruct (retreat_end_spec candidates i c (end_ - start') start' end_)
    as [R1 [R2 R3]]; [lia | lia |].
  fold end' in R1, R2, R3.
  split; [lia|]. intros j Hj. split.
  - intros Hin m Hm.
    assert (Hagree : forall j', (start' <= j' < end')%nat ->
              forall m', (m' < i)%nat ->
              template_char candidates j' m' = char_at t m').
    { intros j' Hj'. apply Hwin; lia. }
    destruct (Nat.eq_dec m i) as [->|Hne]; [|apply (Hagree j Hin); lia].
    assert (Hlow : Ascii.ltb (template_char candidates j i) c = false).
    { apply (ascii_ltb_le_trans _ (template_char candidates start' i)).
      - apply A3. lia.
      - apply template_char_monotone; [exact Hi | lia |].
        intros m' Hm'. rewrite (Hagree start'), (Hagree j) by lia. reflexivity. }
    assert (Hhigh : Ascii.ltb c (template_char candidates j i) = false).
    { apply (ascii_ltb_le_trans _ (template_char candidates (end' - 1) i)).
      - apply template_char_monotone; [exact Hi | lia |].
        intros m' Hm'. rewrite (Hagree j), (Hagree (end' - 1)%nat) by lia.
        reflexivity.
      - apply R3. lia. }
    apply (ascii_between _ _ (template_char candidates j i));
      [exact Hhigh | exact Hlow | apply ascii_ltb_irrefl].
  - intros Hall.
    assert (Hin : (start <= j < end_)%nat).
    { apply Hwin; [exact Hj|]. intros m Hm. apply Hall. lia. }
    assert (Hc : template_char candidates j i = c) by (apply Hall; lia).
    destruct (Nat.lt_ge_cases j start') as [Hlt|Hge].
    { specialize (A2 j). rewrite Hc, ascii_ltb_irrefl in A2.
      assert (false = true) by (apply A2; lia). discriminate. }
    destruct (Nat.lt_ge_cases j end') as [Hlt'|Hge']; [lia|].
    specialize (R2 j). rewrite Hc, ascii_ltb_irrefl in R2.
    assert (false = true) by (apply R2; lia). discriminate.
Qed.

End Narrowing.

(** ** The loop of [_parse] *)

Lemma normalise_length (s : string) :
  String.length (normalise s) = String.length s.
Proof. induction s as [|c s IH]; cbn; [reflexivity | now rewrite IH]. Qed.

Lemma char_at_normalise (s : string) (i : nat) :
  (i < String.length s)%nat ->
  char_at (normalise s) i = normalise_char (char_at s i).
Proof.
  revert i. induction s as [|c s IH]; intros i Hi; cbn [String.length] in Hi;
    [lia|].
  destruct i as [|i]; cbn [normalise].
  - now rewrite !char_at_cons_0.
  - rewrite !char_at_cons_S. apply IH. lia.
Qed.

Lemma map_char_at_seq (s : string) :
  map (char_at s) (seq 0 (String.length s)) = list_ascii_of_string s.
Proof.
  induction s as [|c s IH]; [reflexivity|].
  cbn [String.length seq map list_ascii_of_string]. rewrite char_at_cons_0.
  f_equal. rewrite <- seq_shift, map_map. rewrite <- IH.
  apply map_ext. intros m. apply char_at_cons_S.
Qed.

Lemma parse_step_eq (candidates : dict) (input : string)
    (address : Z) (start end_ index : nat) :
  parse_step candidates input (address, start, end_) index
  = let c := normalise_char (char_at input index) in
    let start' := advance_start (end_ - start) candidates index c start end_ in
    let end' := retreat_end (end_ - start') candidates index c start' end_ in
    if (end' <=? start')%nat then Raise CannotParse
    else OK (accumulate_chars address [char_at input index], start', end').
Proof.
  unfold parse_step, normalise_char, accumulate_chars. cbn [fold_left].
  destruct (contains _HEX_DIGITS (char_at input index)); reflexivity.
Qed.

Section Loop.

Variable candidates : dict.
Variable input : string.

Hypothesis candidates_ordered : StronglySorted entry_le candidates.
Hypothesis candidates_lengths :
  Forall (fun p => String.length (fst p) = String.length input) candidates.

(** The loop either ends on the window of the candidates equal to the
    normalised input, which is not empty, with the accumulated integer, or
    raises because no candidate is equal to the normalised input. *)
Lemma parse_loop_spec (n : nat) :
  forall (i : nat) (address : Z) (start end_ : nat),
  (i + n = String.length input)%nat ->
  window_inv candidates (normalise input) i start end_ ->
  match parse_loop candidates input (seq i n) (address, start, end_) with
  | OK (address', start', end') =>
      window_inv candidates (normalise input) (String.length input) start' end'
      /\ ((start < end_ \/ 0 < n)%nat -> (start' < end')%nat)
      /\ address' = accumulate_chars address (map (char_at input) (seq i n))
  | Raise e =>
      e = CannotParse
      /\ forall j, (j < List.length candidates)%nat ->
           ~ (forall m, (m < String.length input)%nat ->
                template_char candidates j m = char_at (normalise input) m)
  end.
Proof.
  induction n as [|n IH]; intros i address start end_ Hin Hinv;
    cbn [seq parse_loop map].
  - replace (String.length input) with i by lia.
    split; [exact Hinv|]. split; [lia | reflexivity].
  - rewrite parse_step_eq. cbv zeta.
    pose proof (narrowing_step candidates (String.length input) (normalise input)
                  candidates_ordered candidates_lengths i start end_
                  ltac:(lia) Hinv) as Hstep.
    cbv zeta in Hstep. rewrite char_at_normalise in Hstep by lia.
    set (c := normalise_char (char_at input i)) in *.
    set (start' := advance_start (end_ - start) candidates i c start end_) in *.
    set (end' := retreat_end (end_ - start') candidates i c start' end_) in *.
    destruct (Nat.leb_spec end' start') as [Hempty|Hnonempty]; cbn [bind].
    + split; [reflexivity|]. intros j Hj Hall.
      destruct Hstep as [_ Hwin].
      assert (start' <= j < end')%nat; [|lia].
      apply Hwin; [exact Hj|]. intros m Hm. apply Hall. lia.
    + specialize (IH (S i) (accumulate_chars address [char_at input i])
                    start' end' ltac:(lia) Hstep).
      destruct (parse_loop candidates input (seq (S i) n)
                  (accumulate_chars address [char_at input i], start', end'))
        as [[[address'' start''] end'']|e].
      * destruct IH as [H1 [H2 H3]]. split; [exact H1|].
        split; [intros _; apply H2; lia|].
        rewrite H3. unfold accumulate_chars. reflexivity.
      * exact IH.
Qed.

End Loop.

(** ** What [_parse] computes *)

Lemma sorted_collect_facts (len : nat) (classes : list Kind) :
  StronglySorted entry_le (sorted (collect len classes))
  /\ Forall (fun p => String.length (fst p) = len) (sorted (collect len classes))
  /\ NoDup (map fst (sorted (collect len classes))).
Proof.
  destruct (collect_invariant len classes) as [Hnd Hlen].
  split; [apply sorted_ordered|]. split.
  - rewrite Forall_forall in *. intros p Hp. apply Hlen.
    eapply Permutation_in; [apply sorted_perm | exact Hp].
  - eapply Permutation_NoDup; [|exact Hnd].
    apply Permutation_map, Permutation_sym, sorted_perm.
Qed.

(** [_parse] looks the normalised input up among the format strings of the
    classes: it returns the first class that offers a format equal to the
    input with every hexadecimal digit replaced by the wildcard, with the
    accumulated digits shifted right, and raises when no class does. *)
Theorem _parse_spec (input : string) (classes : list Kind) :
  input <> "" ->
  _parse input classes
  = match find (offers (String.length input) (normalise input)) classes with
    | Some k => OK (Z.shiftr (accumulate input) (Z.land (4 - size k) 3), k)
    | None => Raise CannotParse
    end.
Proof.
  intros Hne.
  assert (Hpos : (0 < String.length input)%nat).
  { destruct input; [congruence | cbn; lia]. }
  unfold _parse. cbv zeta.
  destruct (Nat.ltb_spec (String.length input) 1) as [Hlt|_]; [lia|].
  destruct (sorted_collect_facts (String.length input) classes)
    as [Hord [Hlen Hnd]].
  rewrite <- collect_get, <- sorted_get by apply collect_invariant.
  set (candidates := sorted (collect (String.length input) classes)) in *.
  assert (Hinit : window_inv candidates (normalise input) 0 0
                    (List.length candidates)).
  { split; [lia|]. intros j Hj. split; [intros _ m Hm; lia | intros _; lia]. }
  pose proof (parse_loop_spec candidates input Hord Hlen
                (String.length input) 0%nat 0 0%nat (List.length candidates)
                ltac:(lia) Hinit) as Hloop.
  destruct (parse_loop candidates input (seq 0 (String.length input))
              (0, 0%nat, List.length candidates))
    as [[[address start] end_]|e]; cbn [bind].
  - destruct Hloop as [[Hbounds Hwin] [Hnonempty Haddress]].
    assert (Hlt : (start < end_)%nat) by (apply Hnonempty; lia).
    destruct (template_char_entry candidates (String.length input) Hlen start)
      as [f [k [E [Lf Cf]]]]; [lia|].
    assert (Ef : f = normalise input).
    { apply (string_ext (String.length input));
        [exact Lf | apply normalise_length |].
      intros m Hm. rewrite <- Cf.
      apply (proj1 (Hwin start ltac:(lia))); [lia | exact Hm]. }
    rewrite E. subst f.
    assert (Hget : dict_get candidates (normalise input) = Some k).
    { apply dict_get_In; [exact Hnd|]. eapply nth_error_In, E. }
    rewrite Hget, Haddress, map_char_at_seq. reflexivity.
  - destruct Hloop as [-> Hnone].
    assert (Hget : dict_get candidates (normalise input) = None).
    { apply dict_get_None. intros Hin.
      apply In_nth_error in Hin. destruct Hin as [j Hj].
      assert (Hjlt : (j < List.length candidates)%nat).
      { rewrite <- (length_map fst). apply nth_error_Some. congruence. }
      apply (Hnone j Hjlt). intros m Hm.
      destruct (template_char_entry candidates (String.length input) Hlen j Hjlt)
        as [f [k [E [_ Cf]]]].
      rewrite Cf. rewrite nth_error_map, E in Hj. cbn in Hj. congruence. }
    rewrite Hget. reflexivity.
Qed.

(** ** Text of a value and its digits *)

Section Rendering.

Lemma hex_digit_spec (d : Z) :
  0 <= d < 16 ->
  contains _HEX_DIGITS (hex_digit d) = true /\ int16 (hex_digit d) = d.
Proof.
  intros Hd.
  assert (H16 : d = 0 \/ d = 1 \/ d = 2 \/ d = 3 \/ d = 4 \/ d = 5 \/ d = 6
                \/ d = 7 \/ d = 8 \/ d = 9 \/ d = 10 \/ d = 11 \/ d = 12
                \/ d = 13 \/ d = 14 \/ d = 15) by lia.
  repeat (destruct H16 as [->|H16]; [split; reflexivity|]).
  subst d. split; reflexivity.
Qed.

Lemma length_string_of_list (l : list ascii) :
  String.length (string_of_list_ascii l) = List.length l.
Proof. induction l as [|c l IH]; cbn; [reflexivity | now rewrite IH]. Qed.

Lemma length_list_of_string (s : string) :
  List.length (list_ascii_of_string s) = String.length s.
Proof. induction s as [|c s IH]; cbn; [reflexivity | now rewrite IH]. Qed.

Lemma normalise_of_list (l : list ascii) :
  normalise (string_of_list_ascii l) = string_of_list_ascii (map normalise_char l).
Proof. induction l as [|c l IH]; cbn; [reflexivity | now rewrite IH]. Qed.

Lemma str_loop_acc (characters : list ascii) (v : Z) (result : list ascii) :
  str_loop characters v result = result ++ str_loop characters v [].
Proof.
  revert v result. induction characters as [|c rest IH]; intros v result;
    cbn [str_loop].
  - now rewrite app_nil_r.
  - destruct (Ascii.eqb c "x").
    + rewrite (IH _ (result ++ _)), (IH _ ([] ++ _)), <- app_assoc. reflexivity.
    + rewrite (IH _ (result ++ _)), (IH _ ([] ++ _)), <- app_assoc. reflexivity.
Qed.

Lemma str_loop_cons (c : ascii) (rest : list ascii) (v : Z) :
  str_loop (c :: rest) v []
  = (if Ascii.eqb c "x" then hex_digit (Z.land v 15) else c)
    :: str_loop rest (if Ascii.eqb c "x" then Z.shiftr v 4 else v) [].
Proof.
  cbn [str_loop]. destruct (Ascii.eqb c "x"); now rewrite str_loop_acc.
Qed.

Lemma str_loop_length (characters : list ascii) (v : Z) :
  List.length (str_loop characters v []) = List.length characters.
Proof.
  revert v. induction characters as [|c rest IH]; intros v; [reflexivity|].
  rewrite str_loop_cons. cbn [List.length]. now rewrite IH.
Qed.

Lemma land_15_range (v : Z) : 0 <= Z.land v 15 < 16.
Proof. rewrite land_15. apply Z.mod_pos_bound. lia. Qed.

(** Normalising the text gives the format back when no literal of the
    format is a hexadecimal digit. *)
Lemma str_loop_normalise (characters : list ascii) (v : Z) :
  forallb (fun c => negb (contains _HEX_DIGITS c)) characters = true ->
  map normalise_char (str_loop characters v []) = characters.
Proof.
  revert v. induction characters as [|c rest IH]; intros v Hfree; [reflexivity|].
  cbn [forallb] in Hfree. apply andb_true_iff in Hfree. destruct Hfree as [Hc Hrest].
  rewrite str_loop_cons. cbn [map]. rewrite (IH _ Hrest). f_equal.
  destruct (Ascii.eqb_spec c "x") as [->|Hx].
  - unfold normalise_char.
    now rewrite (proj1 (hex_digit_spec _ (land_15_range v))).
  - unfold normalise_char. apply negb_true_iff in Hc. now rewrite Hc.
Qed.

Lemma accumulate_chars_snoc (a : Z) (l : list ascii) (c : ascii) :
  accumulate_chars a (l ++ [c])
  = if contains _HEX_DIGITS c
    then Z.shiftl (accumulate_chars a l) 4 + int16 c
    else accumulate_chars a l.
Proof. unfold accumulate_chars. now rewrite fold_left_app. Qed.

(** Reading the digits of the text gives the low nibbles of the integer,
    one per wildcard. *)
Lemma str_loop_accumulate (characters : list ascii) (v : Z) :
  forallb (fun c => negb (contains _HEX_DIGITS c)) characters = true ->
  accumulate_chars 0 (rev (str_loop characters v []))
  = v mod 16 ^ Z.of_nat (List.length (filter (fun c => Ascii.eqb c "x") characters)).
Proof.
  revert v. induction characters as [|c rest IH]; intros v Hfree.
  - cbn. now rewrite Z.mod_1_r.
  - cbn [forallb] in Hfree. apply andb_true_iff in Hfree.
    destruct Hfree as [Hc Hrest].
    rewrite str_loop_cons. cbn [rev filter]. rewrite accumulate_chars_snoc.
    destruct (Ascii.eqb_spec c "x") as [->|Hx].
    + destruct (hex_digit_spec _ (land_15_range v)) as [Hhex Hint].
      rewrite Hhex, Hint, (IH _ Hrest), land_15.
      rewrite Z.shiftl_mul_pow2, Z.shiftr_div_pow2 by lia.
      change (2 ^ 4) with 16. cbn [List.length].
      rewrite Nat2Z.inj_succ, Z.pow_succ_r by lia.
      rewrite (Z.rem_mul_r v 16) by lia. lia.
    + apply negb_true_iff in Hc. rewrite Hc. apply (IH _ Hrest).
Qed.

Lemma render_length (K : Kind) (f : string) (n : Z) :
  String.length (render K f n) = String.length f.
Proof.
  unfold render.
  now rewrite length_string_of_list, length_rev, str_loop_length, length_rev,
    length_list_of_string.
Qed.

Lemma hex_free_rev (f : string) :
  hex_free f = true ->
  forallb (fun c => negb (contains _HEX_DIGITS c)) (rev (list_ascii_of_string f)) = true.
Proof.
  unfold hex_free. rewrite !forallb_forall. intros H c Hc.
  apply H. now apply in_rev.
Qed.

Lemma normalise_render (K : Kind) (f : string) (n : Z) :
  hex_free f = true -> normalise (render K f n) = f.
Proof.
  intros Hfree. unfold render.
  rewrite normalise_of_list, map_rev, str_loop_normalise by now apply hex_free_rev.
  now rewrite rev_involutive, string_of_list_ascii_of_string.
Qed.

Lemma accumulate_render (K : Kind) (f : string) (n : Z) :
  hex_free f = true ->
  accumulate (render K f n)
  = Z.shiftl n (Z.land (4 - size K) 3) mod 16 ^ wildcards f.
Proof.
  intros Hfree. unfold render, accumulate, wildcards.
  rewrite list_ascii_of_string_of_list_ascii.
  rewrite str_loop_accumulate by now apply hex_free_rev.
  now rewrite filter_rev, length_rev.
Qed.

End Rendering.

(** ** Round trip through text *)

Lemma aligned_below_nibble_capacity (s n : Z) :
  0 <= s -> 0 <= n < 2 ^ s ->
  0 <= Z.shiftl n (Z.land (4 - s) 3) < 16 ^ ((s + 3) / 4).
Proof.
  intros Hs Hn. destruct (nibble_offset_spec s) as [Ho Hsum].
  rewrite Z.shiftr_div_pow2 in Hsum by lia. change (2 ^ 2) with 4 in Hsum.
  rewrite Z.shiftl_mul_pow2 by lia.
  assert (0 <= (s + 3) / 4) by (apply Z.div_pos; lia).
  change 16 with (2 ^ 4). rewrite <- Z.pow_mul_r by lia.
  rewrite <- Hsum, Z.pow_add_r by lia.
  assert (0 < 2 ^ Z.land (4 - s) 3) by (apply Z.pow_pos_nonneg; lia).
  nia.
Qed.

Lemma wildcards_le_length (f : string) :
  wildcards f <= Z.of_nat (String.length f).
Proof.
  unfold wildcards. rewrite <- length_list_of_string.
  apply inj_le, filter_length_le.
Qed.

(** Parsing the text of an integer under a format of the class gives the
    integer back. *)
Lemma parse_render (K : Kind) (n : Z) (f : string) :
  valid_kind K -> 0 <= n < 2 ^ size K ->
  In f (formats K) -> hex_free f = true ->
  _parse (render K f n) [K] = OK (n, K).
Proof.
  intros [Hs [_ Hw]] Hn Hin Hfree. specialize (Hw f Hin).
  pose proof (aligned_below_nibble_capacity (size K) n ltac:(lia) Hn) as Hcap.
  assert (Hne : render K f n <> "").
  { intros E. pose proof (render_length K f n) as Hl. rewrite E in Hl.
    pose proof (wildcards_le_length f) as Hle. rewrite <- Hl, Hw in Hle.
    cbn in Hle. assert (1 <= (size K + 3) / 4); [|lia].
    apply Z.div_le_lower_bound; lia. }
  rewrite (_parse_spec _ _ Hne), normalise_render, render_length by exact Hfree.
  cbn [find]. unfold offers.
  assert (Hex : existsb (String.eqb f) (formats K) = true).
  { apply existsb_exists. exists f. split; [exact Hin | apply String.eqb_refl]. }
  rewrite Hex, Nat.eqb_refl. cbn [andb].
  rewrite accumulate_render, Hw by exact Hfree.
  rewrite Z.mod_small by exact Hcap.
  rewrite shiftr_shiftl_same; [reflexivity|].
  apply (nibble_offset_spec (size K)).
Qed.

(** C6, as the code has it: for a valid kind, an integer in range and a
    format of the kind none of whose literal characters is a hexadecimal
    digit, the text of the integer under the format parses, with the kind as
    the only candidate, to a value equal to the one built from the
    integer. *)
Theorem C6_text_round_trip (K : Kind) (n : Z) (f : string) :
  valid_kind K -> 0 <= n < 2 ^ size K ->
  In f (formats K) -> hex_free f = true ->
  exists a b,
    from_text K (render K f n) = OK a
    /\ from_integer K n = OK b
    /\ __eq__ a b = true /\ __eq__ b a = true.
Proof.
  intros HK Hn Hin Hfree.
  exists (mkHWAddress K n), (mkHWAddress K n). repeat split.
  - unfold from_text. now rewrite (parse_render K n f HK Hn Hin Hfree).
  - apply from_integer_OK; [destruct HK; lia | exact Hn].
  - apply eq_refl_value.
  - apply eq_refl_value.
Qed.

Lemma EUI60_valid : valid_kind EUI60.
Proof.
  split; [cbn; lia|]. split; [discriminate|].
  intros f Hf. cbn in Hf.
  destruct Hf as [<-|[<-|[<-|[]]]]; reflexivity.
Defined.

Lemma C6_text_round_trip_witness :
  valid_kind EUI60 /\ 0 <= 0x123456789ABCDEF < 2 ^ size EUI60
  /\ In "xx-xx-xx.x.x.x.x.x.x.x.x.x" (formats EUI60)
  /\ hex_free "xx-xx-xx.x.x.x.x.x.x.x.x.x" = true
  /\ exists a b,
       from_text EUI60 (render EUI60 "xx-xx-xx.x.x.x.x.x.x.x.x.x" 0x123456789ABCDEF)
       = OK a
       /\ from_integer EUI60 0x123456789ABCDEF = OK b
       /\ __eq__ a b = true /\ __eq__ b a = true.
Proof.
  split; [exact EUI60_valid|]. split; [cbn; lia|].
  split; [cbn; tauto|]. split; [reflexivity|].
  apply (C6_text_round_trip EUI60 0x123456789ABCDEF "xx-xx-xx.x.x.x.x.x.x.x.x.x");
    [exact EUI60_valid | cbn; lia | cbn; tauto | reflexivity].
Defined.

(** C6 as stated fails: the kind of size 4 with the single format [0x] is
    valid, and the text [05] of the integer 5 does not parse, because the
    digit [0] of the input stands for a wildcard and the literal [0] of the
    format does not. *)
Lemma C6_counterexample :
  ~ (forall (K : Kind) (n : Z) (f : string),
       valid_kind K -> 0 <= n < 2 ^ size K -> In f (formats K) ->
       exists a b,
         from_text K (render K f n) = OK a
         /\ from_integer K n = OK b
         /\ __eq__ a b = true).
Proof.
  intros H.
  destruct (H (Class 4 ["0x"]) 5 "0x") as [a [b [Ha _]]].
  - split; [cbn; lia|]. split; [discriminate|].
    intros f [<-|[]]. reflexivity.
  - cbn. lia.
  - cbn. tauto.
  - vm_compute in Ha. discriminate Ha.
Qed.

(** ** Parsing with several classes *)

Lemma _parse_raises_format (s : string) (classes : list Kind) (e : error) :
  _parse s classes = Raise e -> is_FormatError e = true.
Proof.
  destruct s as [|c s].
  - cbn. intros E. injection E as <-. reflexivity.
  - rewrite _parse_spec by discriminate.
    destruct (find _ classes); [discriminate|].
    intros E. injection E as <-. reflexivity.
Qed.

(** C9: with no class, [parse] returns [None] for every string and raises
    nothing; with one class or more it never returns [None], and when the
    matcher fails, which it does whenever no class offers a format equal to
    the normalised input, it raises a format error. *)
Theorem C9_parse_without_classes (s : string) (classes : list Kind) :
  parse s [] = OK None
  /\ (classes <> [] -> parse s classes <> OK None)
  /\ (classes <> [] -> forall e,
        _parse s classes = Raise e ->
        parse s classes = Raise e /\ is_FormatError e = true)
  /\ (classes <> [] ->
      find (offers (String.length s) (normalise s)) classes = None ->
      exists e, parse s classes = Raise e /\ is_FormatError e = true).
Proof.
  split; [reflexivity|]. split; [|split].
  - intros Hne. destruct classes as [|k classes]; [congruence|].
    unfold parse. destruct (_parse s (k :: classes)) as [[address cls']|e];
      cbn [bind]; [|discriminate].
    destruct (from_integer cls' address); cbn [bind]; discriminate.
  - intros Hne e He. destruct classes as [|k classes]; [congruence|].
    split; [|exact (_parse_raises_format _ _ _ He)].
    unfold parse. rewrite He. reflexivity.
  - intros Hne Hfind. destruct classes as [|k classes]; [congruence|].
    destruct s as [|c s].
    + exists EmptyInput. split; reflexivity.
    + exists CannotParse. split; [|reflexivity].
      unfold parse. rewrite _parse_spec by discriminate.
      rewrite Hfind. reflexivity.
Qed.

Lemma C9_parse_without_classes_witness :
  [EUI48] <> []
  /\ find (offers (String.length "not-a-mac") (normalise "not-a-mac")) [EUI48] = None
  /\ exists e, parse "not-a-mac" [EUI48] = Raise e /\ is_FormatError e = true.
Proof.
  split; [discriminate|]. split; [reflexivity|].
  apply (proj2 (proj2 (proj2 (C9_parse_without_classes "not-a-mac" [EUI48]))));
    [discriminate | reflexivity].
Defined.

(** ** The parser and the reference matcher *)

Section Reference.

Lemma hex_free_cons (c : ascii) (f : string) :
  hex_free (String c f) = negb (contains _HEX_DIGITS c) && hex_free f.
Proof. reflexivity. Qed.

Lemma contains_cons (a : ascii) (s : string) (c : ascii) :
  contains (String a s) c = Ascii.eqb c a || contains s c.
Proof. reflexivity. Qed.

(** On an input without the letter [x], a format without hexadecimal
    literals matches structurally exactly when it is the normalised
    input. *)
Lemma matches_normalise (f input : string) :
  hex_free f = true -> contains input "x" = false ->
  matches f input = String.eqb f (normalise input).
Proof.
  revert input. induction f as [|t f IH]; intros [|c input] Hfree Hx;
    cbn [matches normalise String.eqb]; try reflexivity.
  rewrite hex_free_cons in Hfree. apply andb_true_iff in Hfree.
  destruct Hfree as [Ht Hf].
  rewrite contains_cons in Hx. apply orb_false_iff in Hx.
  destruct Hx as [Hcx Hx].
  rewrite (IH input Hf Hx).
  assert (Hchar : (if Ascii.eqb t "x" then contains _HEX_DIGITS c else Ascii.eqb t c)
                  = Ascii.eqb t (normalise_char c)); [|now rewrite Hchar].
  unfold normalise_char.
  destruct (contains _HEX_DIGITS c) eqn:Hc.
  - destruct (Ascii.eqb_spec t "x") as [->|Hne]; [reflexivity|].
    apply Ascii.eqb_neq. intros ->. rewrite Hc in Ht. discriminate.
  - destruct (Ascii.eqb_spec t "x") as [->|Hne]; [|reflexivity].
    now rewrite Hcx.
Qed.

Lemma string_ltb_irrefl (s : string) : String.ltb s s = false.
Proof. now rewrite string_ltb_leb, string_leb_refl. Qed.

Lemma smallest_same_key (t : string) (l : list (string * Kind)) :
  Forall (fun p => fst p = t) l -> smallest l = hd_error l.
Proof.
  unfold smallest. destruct l as [|p l]; [reflexivity|].
  intros H. inversion H as [|? ? Hp Hl]; subst. cbn [fold_left hd_error].
  induction Hl as [|q l Hq Hl IH]; [reflexivity|].
  cbn [fold_left]. rewrite Hq, string_ltb_irrefl. apply IH.
  constructor; [reflexivity | exact Hl].
Qed.

(** The pairs of one class with the format [t]. *)
Lemma class_pairs (len : nat) (t : string) (k : Kind) (fs : list string) :
  let l := filter (fun p => String.eqb (fst p) t)
             (map (fun f => (f, k))
                (filter (fun f => Nat.eqb (String.length f) len) fs)) in
  (existsb (String.eqb t) fs && Nat.eqb (String.length t) len = true ->
   exists l', l = (t, k) :: l')
  /\ (existsb (String.eqb t) fs && Nat.eqb (String.length t) len = false ->
      l = []).
Proof.
  induction fs as [|f fs IH]; cbn [filter map existsb].
  - split; [discriminate | reflexivity].
  - cbv zeta in IH. destruct IH as [IH1 IH2].
    destruct (Nat.eqb_spec (String.length f) len) as [Hlen|Hlen];
      cbn [map filter fst].
    + rewrite (String.eqb_sym f t).
      destruct (String.eqb_spec t f) as [->|Hne]; cbn [orb andb].
      * rewrite Hlen, Nat.eqb_refl. split; [eauto | discriminate].
      * split; assumption.
    + destruct (String.eqb_spec t f) as [->|Hne]; cbn [orb andb].
      * apply Nat.eqb_neq in Hlen. rewrite Hlen.
        split; [discriminate|]. intros _. apply IH2.
        rewrite Hlen. apply andb_false_r.
      * split; assumption.
Qed.

(** The first pair with the format [t] belongs to the first class that
    offers [t]. *)
Lemma pairs_first (len : nat) (t : string) (classes : list Kind) :
  hd_error (filter (fun p => String.eqb (fst p) t) (pairs len classes))
  = option_map (pair t) (find (offers len t) classes).
Proof.
  induction classes as [|k classes IH]; [reflexivity|].
  unfold pairs. cbn [flat_map find]. fold (pairs len classes).
  rewrite filter_app.
  destruct (class_pairs len t k (formats k)) as [H1 H2].
  unfold offers at 1. destruct (existsb (String.eqb t) (formats k)
                                && Nat.eqb (String.length t) len).
  - destruct (H1 eq_refl) as [l' ->]. reflexivity.
  - rewrite (H2 eq_refl). exact IH.
Qed.

Lemma nibble_offset_words (s : Z) : (4 - s mod 4) mod 4 = Z.land (4 - s) 3.
Proof. rewrite land_3. apply Zminus_mod_idemp_r. Qed.

(** X2: On an input without the letter [x], for classes whose formats have no
    hexadecimal literal, [_parse] and the reference matcher agree. *)
Theorem _parse_refines_reference (input : string) (classes : list Kind) :
  input <> "" ->
  (forall k f, In k classes -> In f (formats k) -> hex_free f = true) ->
  contains input "x" = false ->
  _parse input classes = reference_match input classes.
Proof.
  intros Hne Hfree Hx. rewrite (_parse_spec input classes Hne).
  unfold reference_match.
  assert (Hfilter :
            filter (fun p => matches (fst p) input)
              (pairs (String.length input) classes)
            = filter (fun p => String.eqb (fst p) (normalise input))
                (pairs (String.length input) classes)).
  { apply filter_ext_in. intros [f k] Hp. cbn [fst].
    apply matches_normalise; [|exact Hx].
    unfold pairs in Hp. apply in_flat_map in Hp. destruct Hp as [k' [Hk Hp]].
    apply in_map_iff in Hp. destruct Hp as [f' [E Hf]].
    injection E as -> ->. apply filter_In in Hf.
    apply (Hfree k f Hk), Hf. }
  rewrite Hfilter, (smallest_same_key (normalise input)), pairs_first.
  - destruct (find _ classes) as [k|]; cbn [option_map]; [|reflexivity].
    now rewrite nibble_offset_words.
  - apply Forall_forall. intros p Hp. apply filter_In in Hp.
    now apply String.eqb_eq.
Qed.

End Reference.

Lemma _parse_refines_reference_witness :
  "01:23:45:67:89:ab" <> "" /\ contains "01:23:45:67:89:ab" "x" = false
  /\ _parse "01:23:45:67:89:ab" [EUI64; EUI48]
     = reference_match "01:23:45:67:89:ab" [EUI64; EUI48].
Proof.
  split; [discriminate|]. split; [reflexivity|].
  apply _parse_refines_reference; [discriminate | | reflexivity].
  intros k f [<-|[<-|[]]] Hf; cbn in Hf;
    repeat (destruct Hf as [<-|Hf]; [reflexivity|]); contradiction.
Defined.

(** C4 holds on every input without the letter [x]
    ([_parse_refines_reference]) and fails on the others: [_parse] takes the
    letter [x] of the input for a wildcard, so a string of [x] parses as
    the address zero, where the reference matcher finds no hexadecimal
    digit and fails. *)
Theorem C4_parse_accepts_letter_x :
  _parse "xx-xx-xx" [OUI] = OK (0, OUI)
  /\ reference_match "xx-xx-xx" [OUI] = Raise CannotParse
  /\ from_text OUI "xx-xx-xx" = OK (mkHWAddress OUI 0)
  /\ (forall f, In f (formats OUI) -> hex_free f = true).
Proof.
  repeat split; try reflexivity.
  intros f Hf. cbn in Hf. destruct Hf as [<-|[<-|[<-|[]]]]; reflexivity.
Qed.

(** ** The concrete scenarios of the specification *)

Example scenario_text :
  from_text EUI48 "01-23-45-67-89-AB" = OK (mkHWAddress EUI48 0x0123456789AB)
  /\ __str__ (mkHWAddress EUI48 0x0123456789AB) = OK "01-23-45-67-89-AB".
Proof. split; vm_compute; reflexivity. Qed.

Example scenario_other_separator :
  from_text EUI48 "01:23:45:67:89:ab" = from_text EUI48 "01-23-45-67-89-AB".
Proof. vm_compute. reflexivity. Qed.

Example scenario_prefix_first :
  __lt__ (mkHWAddress OUI 0x010203) (mkHWAddress EUI48 0x010203040506) = true.
Proof. reflexivity. Qed.

Example scenario_same_kind :
  __lt__ (mkHWAddress OUI 0x010203) (mkHWAddress OUI 0x010204) = true
  /\ __eq__ (mkHWAddress OUI 0x010203) (mkHWAddress OUI 0x010203) = true.
Proof. split; reflexivity. Qed.

Example scenario_bytes :
  (a <- from_bytes EUI48 [x01; x23; x45; x67; x89; xab] ;; __str__ a)
  = OK "01-23-45-67-89-AB".
Proof. vm_compute. reflexivity. Qed.

Example scenario_errors :
  from_text EUI48 "not-a-mac" = Raise CannotParse
  /\ from_integer EUI48 (Z.shiftl 1 48) = Raise TooBig
  /\ from_bytes EUI48 [x01; x02] = Raise WrongLength.
Proof. repeat split; vm_compute; reflexivity. Qed.

Example scenario_first_class_wins :
  parse "0123456789ab" [MAC; EUI48] = OK (Some (mkHWAddress MAC 0x0123456789AB))
  /\ parse "01.2.3.4.5.6.7.8.9.a.b.c.d.e.f" [] = OK None.
Proof. split; vm_compute; reflexivity. Qed.

(** * Further properties of the module *)

(** ** What the matcher returns *)

Lemma _parse_empty (classes : list Kind) : _parse "" classes = Raise EmptyInput.
Proof. reflexivity. Qed.

Lemma _parse_cases (input : string) (classes : list Kind) :
  _parse input classes
  = match input with
    | EmptyString => Raise EmptyInput
    | String _ _ =>
        match find (offers (String.length input) (normalise input)) classes with
        | Some k => OK (Z.shiftr (accumulate input) (Z.land (4 - size k) 3), k)
        | None => Raise CannotParse
        end
    end.
Proof.
  destruct input as [|c input].
  - apply _parse_empty.
  - apply _parse_spec. discriminate.
Qed.

(** X1: [_parse] in full: the empty input raises; any other input is looked up,
    with every hexadecimal digit replaced by the wildcard, among the formats
    of the classes in the order of the arguments; the class found gives the
    shift of the accumulated digits, and no class found is an error. *)
Theorem _parse_characterised (input : string) (classes : list Kind) :
  (input = "" -> _parse input classes = Raise EmptyInput)
  /\ (input <> "" ->
      forall k,
        find (offers (String.length input) (normalise input)) classes = Some k ->
        _parse input classes
        = OK (Z.shiftr (accumulate input) (Z.land (4 - size k) 3), k))
  /\ (input <> "" ->
      find (offers (String.length input) (normalise input)) classes = None ->
      _parse input classes = Raise CannotParse)
  /\ (forall e, _parse input classes = Raise e -> is_FormatError e = true).
Proof.
  split; [|split; [|split]].
  - intros ->. apply _parse_empty.
  - intros Hne k Hk. now rewrite (_parse_spec input classes Hne), Hk.
  - intros Hne Hk. now rewrite (_parse_spec input classes Hne), Hk.
  - intros e. rewrite _parse_cases. destruct input as [|c input].
    + intros E. injection E as <-. reflexivity.
    + destruct (find _ classes); [discriminate|].
      intros E. injection E as <-. reflexivity.
Qed.

Lemma _parse_characterised_witness :
  "01:23:45:67:89:ab" <> ""
  /\ _parse "01:23:45:67:89:ab" [EUI64; EUI48; OUI]
     = OK (Z.shiftr (accumulate "01:23:45:67:89:ab") (Z.land (4 - size EUI48) 3), EUI48).
Proof.
  split; [discriminate|].
  apply (proj1 (proj2 (_parse_characterised "01:23:45:67:89:ab" [EUI64; EUI48; OUI])));
    [discriminate | reflexivity].
Defined.

(** The first class is tried first and the others only when it fails. *)
Lemma _parse_cons (s : string) (k : Kind) (rest : list Kind) :
  _parse s (k :: rest)
  = match _parse s [k] with
    | OK r => OK r
    | Raise e =>
        match rest with
        | [] => Raise e
        | _ :: _ => _parse s rest
        end
    end.
Proof.
  destruct s as [|c s].
  - rewrite !_parse_empty. destruct rest; reflexivity.
  - rewrite !(_parse_spec (String c s)) by discriminate. cbn [find].
    destruct (offers _ _ k); [reflexivity|].
    destruct rest; reflexivity.
Qed.

(** X3: With several classes, [_parse] returns what it returns for the first
    class alone when that succeeds, and otherwise what it returns for the
    remaining classes. *)
Theorem _parse_first_class_wins (s : string) (k : Kind) (rest : list Kind) :
  (forall r, _parse s [k] = OK r -> _parse s (k :: rest) = OK r)
  /\ (forall e, _parse s [k] = Raise e -> rest <> [] ->
      _parse s (k :: rest) = _parse s rest)
  /\ (forall r, _parse s (k :: rest) = OK r -> In (snd r) (k :: rest)).
Proof.
  split; [|split].
  - intros r Hr. now rewrite _parse_cons, Hr.
  - intros e He Hne. rewrite _parse_cons, He.
    destruct rest; [congruence | reflexivity].
  - intros [address cls']. rewrite _parse_cases.
    destruct s as [|c s]; [discriminate|].
    destruct (find _ (k :: rest)) as [k'|] eqn:E; [|discriminate].
    intros H. injection H as _ <-. cbn [snd].
    apply find_some in E. apply E.
Qed.

Lemma _parse_first_class_wins_witness :
  _parse "01:23:45:67:89:ab" [EUI64; EUI48; OUI]
  = _parse "01:23:45:67:89:ab" [EUI48; OUI].
Proof.
  apply (proj1 (proj2 (_parse_first_class_wins "01:23:45:67:89:ab" EUI64 [EUI48; OUI]))
           CannotParse); [reflexivity | discriminate].
Defined.

(** ** What the constructor from text and [parse] build *)

Section Built.

Lemma int16_range (c : ascii) : 0 <= int16 c < 16.
Proof.
  unfold int16. set (n := Z.of_N (N_of_ascii c)).
  destruct (Z.leb_spec 48 n), (Z.leb_spec n 57), (Z.leb_spec 65 n),
    (Z.leb_spec n 70), (Z.leb_spec 97 n), (Z.leb_spec n 102); cbn [andb]; lia.
Qed.

Lemma list_of_normalise (s : string) :
  list_ascii_of_string (normalise s) = map normalise_char (list_ascii_of_string s).
Proof. induction s as [|c s IH]; cbn; [reflexivity | now rewrite IH]. Qed.

(** The accumulated integer has at most one nibble per hexadecimal digit
    read, hence per wildcard of the normalised input. *)
Lemma accumulate_chars_bound (l : list ascii) :
  forall (a m : Z), 0 <= m -> 0 <= a < 16 ^ m ->
  0 <= accumulate_chars a l
  < 16 ^ (m + Z.of_nat (List.length
                          (filter (fun c => Ascii.eqb c "x") (map normalise_char l)))).
Proof.
  induction l as [|c l IH]; intros a m Hm Ha.
  - cbn. now rewrite Z.add_0_r.
  - unfold accumulate_chars. cbn [fold_left map filter]. fold (accumulate_chars).
    unfold normalise_char at 1.
    destruct (contains _HEX_DIGITS c) eqn:Hc.
    + cbn [Ascii.eqb Bool.eqb List.length]. rewrite Nat2Z.inj_succ.
      replace (m + Z.succ _) with ((m + 1) + Z.of_nat (List.length
                (filter (fun c => Ascii.eqb c "x") (map normalise_char l)))) by lia.
      apply IH; [lia|].
      pose proof (int16_range c). rewrite Z.shiftl_mul_pow2 by lia.
      change (2 ^ 4) with 16. rewrite Z.pow_add_r by lia.
      change (16 ^ 1) with 16. lia.
    + destruct (Ascii.eqb c "x").
      * cbn [List.length]. rewrite Nat2Z.inj_succ.
        replace (m + Z.succ _) with ((m + 1) + Z.of_nat (List.length
                  (filter (fun c => Ascii.eqb c "x") (map normalise_char l)))) by lia.
        apply IH; [lia|]. rewrite Z.pow_add_r by lia. change (16 ^ 1) with 16. lia.
      * apply IH; assumption.
Qed.

Lemma accumulate_bound (s : string) :
  0 <= accumulate s < 16 ^ wildcards (normalise s).
Proof.
  unfold accumulate, wildcards. rewrite list_of_normalise.
  apply (accumulate_chars_bound _ 0 0); [lia | cbn; lia].
Qed.

(** What [_parse] returns for a class with the right number of wildcards
    is in the range of the class. *)
Lemma parsed_in_range (K : Kind) (s : string) :
  0 <= size K -> wildcards (normalise s) = (size K + 3) / 4 ->
  0 <= Z.shiftr (accumulate s) (Z.land (4 - size K) 3) < 2 ^ size K.
Proof.
  intros Hs Hw. pose proof (accumulate_bound s) as Hb. rewrite Hw in Hb.
  destruct (nibble_offset_spec (size K)) as [Ho Hsum].
  rewrite Z.shiftr_div_pow2 in Hsum by lia. change (2 ^ 2) with 4 in Hsum.
  rewrite Z.shiftr_div_pow2 by lia.
  assert (0 <= (size K + 3) / 4) by (apply Z.div_pos; lia).
  change 16 with (2 ^ 4) in Hb. rewrite <- Z.pow_mul_r, <- Hsum, Z.pow_add_r in Hb by lia.
  assert (0 < 2 ^ Z.land (4 - size K) 3) by (apply Z.pow_pos_nonneg; lia).
  split; [apply Z.div_pos; lia|].
  apply Z.div_lt_upper_bound; lia.
Qed.

Lemma offers_In (len : nat) (t : string) (k : Kind) :
  offers len t k = true <-> In t (formats k) /\ String.length t = len.
Proof.
  unfold offers. rewrite andb_true_iff, Nat.eqb_eq, existsb_exists. split.
  - intros [[f [Hf E]] Hl]. apply String.eqb_eq in E. subst f. tauto.
  - intros [Hf Hl]. split; [|exact Hl]. exists t. split; [exact Hf | apply String.eqb_refl].
Qed.

Lemma _parse_OK_inv (s : string) (classes : list Kind) (address : Z) (k : Kind) :
  _parse s classes = OK (address, k) ->
  s <> "" /\ In k classes /\ In (normalise s) (formats k)
  /\ address = Z.shiftr (accumulate s) (Z.land (4 - size k) 3).
Proof.
  rewrite _parse_cases. destruct s as [|c s]; [discriminate|].
  destruct (find _ classes) as [k'|] eqn:E; [|discriminate].
  intros H. injection H as <- <-. apply find_some in E. destruct E as [Hin Hoff].
  apply offers_In in Hoff. split; [discriminate|]. tauto.
Qed.

Lemma from_integer_inv (K : Kind) (n : Z) (a : HWAddress) :
  from_integer K n = OK a ->
  a = mkHWAddress K n /\ 0 <= size K /\ 0 <= n < 2 ^ size K.
Proof.
  unfold from_integer. destruct (Z.ltb_spec (size K) 0); [discriminate|].
  rewrite shiftl_1_pow by lia.
  destruct (Z.leb_spec (2 ^ size K) n); [discriminate|].
  destruct (Z.ltb_spec n 0); [discriminate|].
  intros E. injection E as <-. repeat split; lia.
Qed.

End Built.

(** X6: The constructor from text, for a valid kind, builds a value of the
    kind whose integer is in range, from an input that one of the formats of
    the kind normalises. *)
Theorem from_text_builds_valid (K : Kind) (s : string) (a : HWAddress) :
  valid_kind K -> from_text K s = OK a ->
  cls a = K /\ valid a /\ s <> ""
  /\ In (normalise s) (formats K)
  /\ _address a = Z.shiftr (accumulate s) (Z.land (4 - size K) 3).
Proof.
  intros [Hs [_ Hw]]. unfold from_text.
  destruct (_parse s [K]) as [[address k]|e] eqn:E; cbn [bind]; [|discriminate].
  intros H. injection H as <-. cbn [cls _address].
  apply _parse_OK_inv in E. destruct E as [Hne [Hin [Hf ->]]].
  destruct Hin as [<-|[]].
  split; [reflexivity|]. split; [|tauto].
  split; [cbn; lia|]. cbn [cls _address].
  apply parsed_in_range; [lia | apply Hw, Hf].
Qed.

Lemma from_text_builds_valid_witness :
  valid_kind EUI60
  /\ from_text EUI60 "1.2.3.4.5.6.7.8.9.a.b.c.d.e.f"
     = OK (mkHWAddress EUI60 0x123456789abcdef)
  /\ valid (mkHWAddress EUI60 0x123456789abcdef).
Proof.
  split; [exact EUI60_valid|]. split; [vm_compute; reflexivity|].
  apply (from_text_builds_valid EUI60 "1.2.3.4.5.6.7.8.9.a.b.c.d.e.f");
    [exact EUI60_valid | vm_compute; reflexivity].
Defined.

(** X7: [parse] returns [None] for no class only; a value it returns is of one
    of the classes given, has its integer in range, and comes from an input
    that one of the formats of its class normalises, whatever the
    classes. *)
Theorem parse_builds_valid (s : string) (classes : list Kind) :
  (parse s classes = OK None <-> classes = [])
  /\ (forall a, parse s classes = OK (Some a) ->
      In (cls a) classes /\ valid a /\ s <> ""
      /\ In (normalise s) (formats (cls a))
      /\ _address a = Z.shiftr (accumulate s) (Z.land (4 - size (cls a)) 3)).
Proof.
  split.
  - split; [|intros ->; reflexivity].
    destruct classes as [|k classes]; [reflexivity|].
    unfold parse. destruct (_parse s (k :: classes)) as [[address c]|e];
      cbn [bind]; [|discriminate].
    destruct (from_integer c address); cbn [bind]; discriminate.
  - intros a. destruct classes as [|k classes]; [discriminate|].
    unfold parse. destruct (_parse s (k :: classes)) as [[address c]|e] eqn:E;
      cbn [bind]; [|discriminate].
    destruct (from_integer c address) as [a'|e] eqn:Ei; cbn [bind]; [|discriminate].
    intros H. injection H as <-.
    apply from_integer_inv in Ei. destruct Ei as [-> [Hs Hr]].
    apply _parse_OK_inv in E. destruct E as [Hne [Hin [Hf ->]]].
    cbn [cls _address]. split; [exact Hin|]. split; [|tauto].
    split; assumption.
Qed.

Lemma parse_builds_valid_witness :
  In (cls (mkHWAddress EUI48 0x0123456789AB)) [EUI64; EUI48]
  /\ valid (mkHWAddress EUI48 0x0123456789AB).
Proof.
  destruct (proj2 (parse_builds_valid "01:23:45:67:89:ab" [EUI64; EUI48])
              (mkHWAddress EUI48 0x0123456789AB)) as [H1 [H2 _]];
    [vm_compute; reflexivity|].
  split; [exact H1 | exact H2].
Defined.

(** ** [parse] and the constructors tried in turn *)

Lemma _parse_single_in_range (K k : Kind) (s : string) (address : Z) :
  valid_kind K -> _parse s [K] = OK (address, k) ->
  k = K /\ from_integer K address = OK (mkHWAddress K address).
Proof.
  intros [Hs [_ Hw]] E.
  apply _parse_OK_inv in E. destruct E as [_ [[<-|[]] [Hf ->]]].
  split; [reflexivity|]. apply from_integer_OK; [lia|].
  apply parsed_in_range; [lia | apply Hw, Hf].
Qed.

(** X8: For one or more valid kinds, [parse] does what the chain of
    constructors of its docstring does: it returns the value of the first
    class, in the order given, whose constructor accepts the string; when
    no constructor accepts it, [parse] raises, as each constructor does,
    at one of the two [raise] statements of the matcher. *)
Theorem parse_tries_each_class (s : string) (classes : list Kind) :
  classes <> [] -> Forall valid_kind classes ->
  match first_accepted s classes with
  | Some a => parse s classes = OK (Some a)
  | None =>
      (exists e, parse s classes = Raise e /\ is_FormatError e = true)
      /\ forall k, In k classes ->
           exists e, from_text k s = Raise e /\ is_FormatError e = true
  end.
Proof.
  intros Hne Hvalid. induction Hvalid as [|k rest Hk Hrest IH]; [congruence|].
  clear Hne. cbn [first_accepted].
  destruct (_parse s [k]) as [[address k']|e] eqn:E.
  - destruct (_parse_single_in_range k k' s address Hk E) as [-> Hi].
    assert (Hft : from_text k s = OK (mkHWAddress k address))
      by (unfold from_text; now rewrite E).
    rewrite Hft. unfold parse. rewrite _parse_cons, E. cbn [bind]. now rewrite Hi.
  - assert (Hft : from_text k s = Raise e) by (unfold from_text; now rewrite E).
    rewrite Hft. pose proof (_parse_raises_format _ _ _ E) as Hfe.
    destruct rest as [|k2 rest].
    + cbn [first_accepted]. split.
      * exists e. split; [|exact Hfe]. unfold parse. now rewrite E.
      * intros k0 [<-|[]]. exists e. split; assumption.
    + assert (Hp : parse s (k :: k2 :: rest) = parse s (k2 :: rest))
        by (unfold parse; now rewrite _parse_cons, E).
      rewrite Hp. specialize (IH ltac:(discriminate)).
      destruct (first_accepted s (k2 :: rest)) as [a|]; [exact IH|].
      destruct IH as [IH1 IH2]. split; [exact IH1|].
      intros k0 [<-|Hin]; [exists e; split; assumption | apply IH2, Hin].
Qed.

Lemma CDI32_valid : valid_kind CDI32.
Proof.
  split; [cbn; lia|]. split; [discriminate|].
  intros f Hf. cbn in Hf. destruct Hf as [<-|[<-|[<-|[]]]]; reflexivity.
Defined.

Lemma parse_tries_each_class_witness :
  [EUI60; CDI32] <> [] /\ Forall valid_kind [EUI60; CDI32]
  /\ first_accepted "01:23:45:67" [EUI60; CDI32]
     = Some (mkHWAddress CDI32 0x01234567)
  /\ parse "01:23:45:67" [EUI60; CDI32] = OK (Some (mkHWAddress CDI32 0x01234567)).
Proof.
  assert (H : Forall valid_kind [EUI60; CDI32]).
  { constructor; [exact EUI60_valid|]. constructor; [exact CDI32_valid | constructor]. }
  assert (F : first_accepted "01:23:45:67" [EUI60; CDI32]
              = Some (mkHWAddress CDI32 0x01234567)) by (vm_compute; reflexivity).
  split; [discriminate|]. split; [exact H|]. split; [exact F|].
  pose proof (parse_tries_each_class "01:23:45:67" [EUI60; CDI32]
                ltac:(discriminate) H) as P.
  rewrite F in P. exact P.
Defined.

(** ** Case of the hexadecimal digits *)

Lemma swap_hex_case_char_spec (c : ascii) :
  contains _HEX_DIGITS (swap_hex_case_char c) = contains _HEX_DIGITS c
  /\ int16 (swap_hex_case_char c) = int16 c
  /\ normalise_char (swap_hex_case_char c) = normalise_char c.
Proof.
  destruct c as [[] [] [] [] [] [] [] []]; repeat split; vm_compute; reflexivity.
Qed.

Lemma same_hex_letter_spec (c1 c2 : ascii) :
  same_hex_letter c1 c2 = true ->
  contains _HEX_DIGITS c1 = contains _HEX_DIGITS c2
  /\ int16 c1 = int16 c2
  /\ normalise_char c1 = normalise_char c2.
Proof.
  unfold same_hex_letter. rewrite orb_true_iff, !Ascii.eqb_eq.
  intros [<-|<-]; [tauto|].
  destruct (swap_hex_case_char_spec c1) as [-> [-> ->]]. tauto.
Qed.

Lemma differ_by_hex_case_length (s1 s2 : string) :
  differ_by_hex_case s1 s2 = true -> String.length s1 = String.length s2.
Proof.
  revert s2. induction s1 as [|c1 s1 IH]; intros [|c2 s2];
    cbn [differ_by_hex_case String.length]; try discriminate; [reflexivity|].
  intros H. apply andb_true_iff in H. destruct H as [_ H]. now rewrite (IH s2 H).
Qed.

Lemma differ_by_hex_case_normalise (s1 s2 : string) :
  differ_by_hex_case s1 s2 = true -> normalise s1 = normalise s2.
Proof.
  revert s2. induction s1 as [|c1 s1 IH]; intros [|c2 s2];
    cbn [differ_by_hex_case normalise]; try discriminate; [reflexivity|].
  intros H. apply andb_true_iff in H. destruct H as [Hc H].
  rewrite (IH s2 H). now destruct (same_hex_letter_spec c1 c2 Hc) as [_ [_ ->]].
Qed.

Lemma differ_by_hex_case_accumulate (s1 s2 : string) :
  differ_by_hex_case s1 s2 = true -> accumulate s1 = accumulate s2.
Proof.
  unfold accumulate. generalize 0. revert s2.
  induction s1 as [|c1 s1 IH]; intros [|c2 s2] a;
    cbn [differ_by_hex_case]; try discriminate; [reflexivity|].
  intros H. apply andb_true_iff in H. destruct H as [Hc H].
  cbn [list_ascii_of_string]. unfold accumulate_chars.
  cbn [fold_left]. fold accumulate_chars.
  destruct (same_hex_letter_spec c1 c2 Hc) as [-> [-> _]].
  destruct (contains _HEX_DIGITS c2); apply IH, H.
Qed.

(** X5: The matcher does not tell [a-f] from [A-F]: two inputs that differ
    only by the case of some of these letters are accepted or rejected
    together, with the same class and the same integer when accepted and at
    the same [raise] statement when rejected. *)
Theorem _parse_ignores_case (s1 s2 : string) (classes : list Kind) :
  differ_by_hex_case s1 s2 = true ->
  _parse s1 classes = _parse s2 classes
  /\ parse s1 classes = parse s2 classes
  /\ forall K, from_text K s1 = from_text K s2.
Proof.
  intros Hd.
  assert (H : forall cs, _parse s1 cs = _parse s2 cs).
  { intros cs. rewrite !_parse_cases.
    rewrite (differ_by_hex_case_length s1 s2 Hd),
      (differ_by_hex_case_normalise s1 s2 Hd),
      (differ_by_hex_case_accumulate s1 s2 Hd).
    destruct s1, s2; try reflexivity; discriminate Hd. }
  split; [apply H|]. split.
  - unfold parse. destruct classes; [reflexivity|]. now rewrite H.
  - intros K. unfold from_text. now rewrite H.
Qed.

Lemma _parse_ignores_case_witness :
  differ_by_hex_case "Ab:cd:ef" "ab:cd:EF" = true
  /\ _parse "Ab:cd:ef" [OUI; CDI32] = _parse "ab:cd:EF" [OUI; CDI32].
Proof.
  split; [reflexivity|].
  exact (proj1 (_parse_ignores_case "Ab:cd:ef" "ab:cd:EF" [OUI; CDI32] eq_refl)).
Defined.

(** ** Order of the classes given to the matcher *)

Lemma find_unique_perm {A : Type} (p : A -> bool) (l l' : list A) :
  Permutation l l' ->
  (forall x y, In x l -> In y l -> p x = true -> p y = true -> x = y) ->
  find p l = find p l'.
Proof.
  intros Hperm Huniq.
  destruct (find p l) as [a|] eqn:E; destruct (find p l') as [b|] eqn:E';
    try reflexivity.
  - apply find_some in E. apply find_some in E'. f_equal.
    apply Huniq; try tauto.
    apply (Permutation_in _ (Permutation_sym Hperm)). tauto.
  - apply find_some in E. destruct E as [Hin Hp].
    apply (Permutation_in _ Hperm) in Hin.
    rewrite (find_none _ _ E' _ Hin) in Hp. discriminate.
  - apply find_some in E'. destruct E' as [Hin Hp].
    apply (Permutation_in _ (Permutation_sym Hperm)) in Hin.
    rewrite (find_none _ _ E _ Hin) in Hp. discriminate.
Qed.

(** X4: When no format string belongs to two of the classes, the order in
    which the classes are given does not matter. *)
Theorem _parse_order_irrelevant (s : string) (classes classes' : list Kind) :
  Permutation classes classes' ->
  (forall k1 k2 f, In k1 classes -> In k2 classes ->
     In f (formats k1) -> In f (formats k2) -> k1 = k2) ->
  _parse s classes = _parse s classes' /\ parse s classes = parse s classes'.
Proof.
  intros Hperm Huniq.
  assert (H : _parse s classes = _parse s classes').
  { rewrite !_parse_cases. destruct s as [|c s]; [reflexivity|].
    rewrite (find_unique_perm _ classes classes' Hperm); [reflexivity|].
    intros x y Hx Hy Hox Hoy. apply offers_In in Hox, Hoy.
    apply (Huniq x y (normalise (String c s))); tauto. }
  split; [exact H|]. unfold parse.
  destruct classes as [|k classes].
  - apply Permutation_nil in Hperm. now subst.
  - destruct classes' as [|k' classes'].
    + apply Permutation_sym, Permutation_nil in Hperm. discriminate.
    + now rewrite H.
Qed.

Lemma _parse_order_irrelevant_witness :
  _parse "01:23:45" [OUI; CDI32] = _parse "01:23:45" [CDI32; OUI]
  /\ parse "01:23:45" [OUI; CDI32] = parse "01:23:45" [CDI32; OUI].
Proof.
  apply (_parse_order_irrelevant "01:23:45" [OUI; CDI32] [CDI32; OUI]).
  - apply perm_swap.
  - intros k1 k2 f [<-|[<-|[]]] [<-|[<-|[]]] H1 H2; try reflexivity;
      cbn in H1, H2;
      destruct H1 as [<-|[<-|[<-|[]]]]; destruct H2 as [H|[H|[H|[]]]];
      discriminate H.
Defined.

(** ** Byte strings *)

Section Bytes.

(** Writing the integer of a byte string back on as many bytes gives the
    byte string. *)
Lemma little_endian_of_bytes (bs : list byte) :
  rev (little_endian (List.length bs) (int_from_bytes bs)) = bs.
Proof.
  induction bs as [|b bs IH] using rev_ind; [reflexivity|].
  rewrite length_app, Nat.add_1_r, int_from_bytes_snoc. cbn [little_endian rev].
  pose proof (Z_of_byte_range b) as Hb.
  rewrite Z.add_comm, Z.mod_add, Z.div_add, Z.mod_small, Z.div_small by lia.
  cbn [Z.add]. now rewrite byte_of_Z_of_byte, IH.
Qed.

Lemma shiftl_low_bits (v k : Z) : 0 <= k -> Z.land (Z.shiftl v k) (Z.ones k) = 0.
Proof.
  intros Hk. rewrite Z.land_ones, Z.shiftl_mul_pow2 by lia.
  apply Z.mod_mul. apply Z.pow_nonzero; lia.
Qed.

Lemma shiftl_shiftr_low_bits (v k : Z) :
  0 <= k -> Z.land v (Z.ones k) = 0 -> Z.shiftl (Z.shiftr v k) k = v.
Proof.
  intros Hk. rewrite Z.land_ones, Z.shiftl_mul_pow2, Z.shiftr_div_pow2 by lia.
  intros Hm. pose proof (Z.div_mod v (2 ^ k) ltac:(apply Z.pow_nonzero; lia)). lia.
Qed.

Lemma bytes_of_valid (a : HWAddress) :
  valid a ->
  exists bs,
    __bytes__ a = OK bs
    /\ Z.of_nat (List.length bs) = (size (cls a) + 7) / 8
    /\ int_from_bytes bs = Z.shiftl (_address a) (Z.land (8 - size (cls a)) 7).
Proof.
  intros [Hs Hr]. destruct a as [K n]. cbn [cls _address] in *.
  pose proof (aligned_below_byte_capacity (size K) n Hs Hr) as Hb.
  destruct (byte_offset_spec (size K)) as [Ho Hsum].
  eexists. split; [apply bytes_of_value; assumption|]. split.
  - rewrite length_rev, little_endian_length, Z2Nat.id, Z.shiftr_div_pow2 by lia.
    reflexivity.
  - rewrite int_from_bytes_little_endian, Z2Nat.id by lia.
    apply Z.mod_small, Hb.
Qed.

End Bytes.

Lemma from_bytes_valid (K : Kind) (bs : list byte) :
  0 <= size K -> Z.of_nat (List.length bs) = (size K + 7) / 8 ->
  valid (mkHWAddress K (Z.shiftr (int_from_bytes bs) (Z.land (8 - size K) 7))).
Proof.
  intros Hs Hlen. unfold valid. cbn [cls _address].
  destruct (byte_offset_spec (size K)) as [Ho Hsum].
  rewrite Z.shiftr_div_pow2 in Hsum by lia. change (2 ^ 3) with 8 in Hsum.
  pose proof (int_from_bytes_range bs) as Hb. rewrite Hlen in Hb.
  change 256 with (2 ^ 8) in Hb.
  assert (0 <= (size K + 7) / 8) by (apply Z.div_pos; lia).
  rewrite <- Z.pow_mul_r, <- Hsum, Z.pow_add_r in Hb by lia.
  assert (0 < 2 ^ Z.land (8 - size K) 7) by (apply Z.pow_pos_nonneg; lia).
  rewrite Z.shiftr_div_pow2 by lia.
  split; [exact Hs|]. split; [apply Z.div_pos; lia|].
  apply Z.div_lt_upper_bound; lia.
Qed.

(** X9: The constructor from bytes raises on any length but [ceil(size / 8)],
    with the wrong-length error, and otherwise builds a value of the kind
    whose integer, the bytes read big-endian without their low padding
    bits, is in range. *)
Theorem from_bytes_checks_length (K : Kind) (bs : list byte) :
  0 <= size K ->
  (Z.of_nat (List.length bs) <> (size K + 7) / 8 ->
   from_bytes K bs = Raise WrongLength /\ is_LengthError WrongLength = true)
  /\ (Z.of_nat (List.length bs) = (size K + 7) / 8 ->
      exists a,
        from_bytes K bs = OK a /\ cls a = K /\ valid a
        /\ _address a = int_from_bytes bs / 2 ^ ((8 - size K) mod 8)).
Proof.
  intros Hs. split.
  - intros Hlen. split; [|reflexivity]. unfold from_bytes.
    rewrite Z.shiftr_div_pow2 by lia. change (2 ^ 3) with 8.
    destruct (Z.eqb_spec (Z.of_nat (List.length bs)) ((size K + 7) / 8));
      [contradiction | reflexivity].
  - intros Hlen. eexists. split; [apply from_bytes_OK, Hlen|].
    split; [reflexivity|]. split; [apply from_bytes_valid; assumption|].
    cbn [_address]. destruct (byte_offset_spec (size K)) as [Ho _].
    rewrite Z.shiftr_div_pow2 by lia. now rewrite land_7.
Qed.

Lemma from_bytes_checks_length_witness :
  0 <= size EUI48
  /\ from_bytes EUI48 [x01; x02] = Raise WrongLength
  /\ is_LengthError WrongLength = true.
Proof.
  split; [cbn; lia|].
  apply (proj1 (from_bytes_checks_length EUI48 [x01; x02] ltac:(cbn; lia))).
  cbn. lia.
Defined.

(** X10: [__bytes__] after the constructor from bytes gives a byte string of
    the same length with the low padding bits cleared, and the very byte
    string when those bits were zero already, as they are for every size
    that is a multiple of 8. *)
Theorem bytes_of_from_bytes (K : Kind) (bs : list byte) :
  0 <= size K -> Z.of_nat (List.length bs) = (size K + 7) / 8 ->
  exists a bs',
    from_bytes K bs = OK a /\ __bytes__ a = OK bs'
    /\ List.length bs' = List.length bs
    /\ int_from_bytes bs'
       = int_from_bytes bs
         - Z.land (int_from_bytes bs) (Z.ones (Z.land (8 - size K) 7))
    /\ (Z.land (int_from_bytes bs) (Z.ones (Z.land (8 - size K) 7)) = 0 ->
        bs' = bs)
    /\ (size K mod 8 = 0 -> bs' = bs).
Proof.
  intros Hs Hlen.
  pose proof (from_bytes_OK K bs Hlen) as Ha.
  pose proof (from_bytes_valid K bs Hs Hlen) as Hvalid.
  set (a := mkHWAddress K (Z.shiftr (int_from_bytes bs) (Z.land (8 - size K) 7))) in *.
  destruct (bytes_of_valid a Hvalid) as [bs' [Hbs' [Hlen' Hint]]].
  destruct (byte_offset_spec (size K)) as [Ho _].
  cbn [a cls _address] in Hlen', Hint.
  set (offset := Z.land (8 - size K) 7) in *.
  assert (Hsame : Z.land (int_from_bytes bs) (Z.ones offset) = 0 -> bs' = bs).
  { intros Hlow. rewrite shiftl_shiftr_low_bits in Hint by (lia || exact Hlow).
    rewrite <- (little_endian_of_bytes bs), <- (little_endian_of_bytes bs').
    rewrite Hint. f_equal. f_equal. lia. }
  exists a, bs'. split; [exact Ha|]. split; [exact Hbs'|].
  split; [lia|]. split; [|split; [exact Hsame|]].
  - rewrite Hint, Z.land_ones, Z.shiftl_mul_pow2, Z.shiftr_div_pow2 by lia.
    pose proof (Z.div_mod (int_from_bytes bs) (2 ^ offset)
                  ltac:(apply Z.pow_nonzero; lia)). lia.
  - intros Hm. apply Hsame.
    assert (E : offset = 0).
    { unfold offset. rewrite land_7. Z.div_mod_to_equations. lia. }
    rewrite E. apply Z.land_0_r.
Qed.

Lemma bytes_of_from_bytes_witness :
  0 <= size EUI60
  /\ Z.of_nat (List.length [x12; x34; x56; x78; x9a; xbc; xde; xff]) = (size EUI60 + 7) / 8
  /\ exists a bs',
       from_bytes EUI60 [x12; x34; x56; x78; x9a; xbc; xde; xff] = OK a
       /\ __bytes__ a = OK bs'
       /\ List.length bs' = List.length [x12; x34; x56; x78; x9a; xbc; xde; xff]
       /\ int_from_bytes bs' = 0x123456789abcdeff - 0xf.
Proof.
  split; [cbn; lia|]. split; [reflexivity|].
  destruct (bytes_of_from_bytes EUI60 [x12; x34; x56; x78; x9a; xbc; xde; xff]
              ltac:(cbn; lia) eq_refl) as [a [bs' [H1 [H2 [H3 [H4 _]]]]]].
  exists a, bs'. split; [exact H1|]. split; [exact H2|]. split; [exact H3|].
  exact H4.
Defined.

(** X11: [__bytes__] succeeds exactly on the values whose integer is in range:
    it then returns [ceil(size / 8)] bytes that hold the integer shifted
    left, with zero padding bits; on any other integer [int.to_bytes]
    raises its overflow error. *)
Theorem bytes_iff_in_range (a : HWAddress) :
  0 <= size (cls a) ->
  (valid a ->
   exists bs,
     __bytes__ a = OK bs
     /\ Z.of_nat (List.length bs) = (size (cls a) + 7) / 8
     /\ int_from_bytes bs = _address a * 2 ^ ((8 - size (cls a)) mod 8)
     /\ Z.land (int_from_bytes bs) (Z.ones ((8 - size (cls a)) mod 8)) = 0)
  /\ (~ valid a -> __bytes__ a = Raise Overflow).
Proof.
  intros Hs. destruct (byte_offset_spec (size (cls a))) as [Ho Hsum]. split.
  - intros Hv. destruct (bytes_of_valid a Hv) as [bs [H1 [H2 H3]]].
    exists bs. rewrite <- land_7. split; [exact H1|]. split; [exact H2|].
    rewrite H3. split; [apply Z.shiftl_mul_pow2; lia | apply shiftl_low_bits; lia].
  - intros Hnv. unfold __bytes__, int_to_bytes.
    assert (0 <= Z.shiftr (size (cls a) + 7) 3) by lia.
    destruct (Z.ltb_spec (Z.shiftr (size (cls a) + 7) 3) 0); [lia|].
    rewrite Z.shiftl_mul_pow2 by lia.
    assert (Hp : 0 < 2 ^ Z.land (8 - size (cls a)) 7) by (apply Z.pow_pos_nonneg; lia).
    destruct (Z.ltb_spec (_address a * 2 ^ Z.land (8 - size (cls a)) 7) 0);
      [reflexivity|].
    change 256 with (2 ^ 8). rewrite <- Z.pow_mul_r, <- Hsum, Z.pow_add_r by lia.
    destruct (Z.leb_spec (2 ^ size (cls a) * 2 ^ Z.land (8 - size (cls a)) 7)
                (_address a * 2 ^ Z.land (8 - size (cls a)) 7)); [reflexivity|].
    exfalso. apply Hnv. split; [exact Hs|]. nia.
Qed.

Lemma bytes_iff_in_range_witness :
  0 <= size (cls (mkHWAddress OUI (Z.shiftl 1 24)))
  /\ ~ valid (mkHWAddress OUI (Z.shiftl 1 24))
  /\ __bytes__ (mkHWAddress OUI (Z.shiftl 1 24)) = Raise Overflow.
Proof.
  assert (Hs : 0 <= size (cls (mkHWAddress OUI (Z.shiftl 1 24)))) by (cbn; lia).
  assert (Hnv : ~ valid (mkHWAddress OUI (Z.shiftl 1 24))).
  { unfold valid. cbn. lia. }
  split; [exact Hs|]. split; [exact Hnv|].
  exact (proj2 (bytes_iff_in_range _ Hs) Hnv).
Defined.

(** X12: Two values of one kind with integers in range and the same byte string
    are the same value. *)
Theorem bytes_injective (a b : HWAddress) :
  valid a -> valid b -> cls a = cls b -> __bytes__ a = __bytes__ b -> a = b.
Proof.
  intros Ha Hb Hcls E.
  destruct (bytes_of_valid a Ha) as [bsa [H1 [_ H2]]].
  destruct (bytes_of_valid b Hb) as [bsb [H3 [_ H4]]].
  rewrite H1, H3 in E. injection E as ->.
  rewrite H4, <- Hcls in H2.
  destruct (byte_offset_spec (size (cls a))) as [Ho _].
  rewrite !Z.shiftl_mul_pow2 in H2 by lia.
  apply Z.mul_reg_r in H2; [|apply Z.pow_nonzero; lia].
  destruct a, b. cbn [cls _address] in *. congruence.
Qed.

Lemma bytes_injective_witness :
  valid (mkHWAddress CDI40 0x0123456789)
  /\ mkHWAddress CDI40 0x0123456789 = mkHWAddress CDI40 0x0123456789.
Proof.
  assert (H : valid (mkHWAddress CDI40 0x0123456789)) by (unfold valid; cbn; lia).
  split; [exact H|].
  apply (bytes_injective _ _ H H); reflexivity.
Defined.

(** ** The text of a value *)

Section Text.

Lemma hex_digit_upper (d : Z) :
  0 <= d < 16 -> contains "0123456789ABCDEF" (hex_digit d) = true.
Proof.
  intros Hd.
  assert (H16 : d = 0 \/ d = 1 \/ d = 2 \/ d = 3 \/ d = 4 \/ d = 5 \/ d = 6
                \/ d = 7 \/ d = 8 \/ d = 9 \/ d = 10 \/ d = 11 \/ d = 12
                \/ d = 13 \/ d = 14 \/ d = 15) by lia.
  repeat (destruct H16 as [->|H16]; [reflexivity|]).
  subst d. reflexivity.
Qed.

Lemma upper_digit_is_hex (c : ascii) :
  contains "0123456789ABCDEF" c = true -> contains _HEX_DIGITS c = true.
Proof.
  destruct c as [[] [] [] [] [] [] [] []]; vm_compute; intros H;
    (reflexivity || discriminate H).
Qed.

Lemma str_loop_canonical (characters : list ascii) (v : Z) :
  Forall2 (fun t c => canonical_char t c = true)
    characters (str_loop characters v []).
Proof.
  revert v. induction characters as [|t rest IH]; intros v; [constructor|].
  rewrite str_loop_cons. constructor; [|apply IH].
  unfold canonical_char. destruct (Ascii.eqb t "x") eqn:E.
  - apply hex_digit_upper, land_15_range.
  - apply Ascii.eqb_refl.
Qed.

Lemma Forall2_rev_both {A B : Type} (R : A -> B -> Prop) (l : list A) (m : list B) :
  Forall2 R l m -> Forall2 R (rev l) (rev m).
Proof.
  induction 1 as [|x y l m Hxy Hlm IH]; [constructor|].
  cbn [rev]. apply Forall2_app; [exact IH | repeat constructor; exact Hxy].
Qed.

Lemma canonical_text_of_lists (ts cs : list ascii) :
  Forall2 (fun t c => canonical_char t c = true) ts cs ->
  canonical_text (string_of_list_ascii ts) (string_of_list_ascii cs) = true.
Proof.
  induction 1 as [|t c ts cs Htc Hrest IH]; [reflexivity|].
  cbn [string_of_list_ascii canonical_text]. unfold canonical_char in Htc.
  now rewrite Htc, IH.
Qed.

Lemma render_canonical (K : Kind) (f : string) (n : Z) :
  canonical_text f (render K f n) = true.
Proof.
  unfold render. rewrite <- (string_of_list_ascii_of_string f) at 1.
  apply canonical_text_of_lists.
  rewrite <- (rev_involutive (list_ascii_of_string f)) at 1.
  apply Forall2_rev_both, str_loop_canonical.
Qed.

Lemma canonical_text_matches (f s : string) :
  canonical_text f s = true -> matches f s = true.
Proof.
  revert s. induction f as [|t f IH]; intros [|c s]; cbn [canonical_text matches];
    try (intros H; exact H).
  intros H. apply andb_true_iff in H. destruct H as [Hc Hs].
  rewrite (IH s Hs), andb_true_r.
  destruct (Ascii.eqb t "x"); [apply upper_digit_is_hex, Hc | exact Hc].
Qed.

End Text.

(** X13: [__str__] raises only for a class without any format; otherwise the
    text has the length of the first format, one digit among [0-9A-F] at
    every wildcard of it and its characters elsewhere. *)
Theorem str_follows_first_format (a : HWAddress) :
  match formats (cls a) with
  | [] => __str__ a = Raise IndexOutOfRange
  | f :: _ =>
      exists s,
        __str__ a = OK s
        /\ String.length s = String.length f
        /\ canonical_text f s = true
        /\ matches f s = true
  end.
Proof.
  unfold __str__. destruct (formats (cls a)) as [|f fs]; [reflexivity|].
  eexists. split; [reflexivity|]. split; [apply render_length|].
  split; [apply render_canonical | apply canonical_text_matches, render_canonical].
Qed.

(** Parsing the text of an integer under a format of a valid kind, among
    classes the first of which to offer the format has the size of the
    kind, gives the integer and that class. *)
Lemma _parse_render (K K' : Kind) (n : Z) (f : string) (classes : list Kind) :
  valid_kind K -> 0 <= n < 2 ^ size K ->
  In f (formats K) -> hex_free f = true ->
  find (offers (String.length f) f) classes = Some K' -> size K' = size K ->
  _parse (render K f n) classes = OK (n, K').
Proof.
  intros [Hs [_ Hw]] Hn Hin Hfree Hfind Hsize. specialize (Hw f Hin).
  pose proof (aligned_below_nibble_capacity (size K) n ltac:(lia) Hn) as Hcap.
  assert (Hne : render K f n <> "").
  { intros E. pose proof (render_length K f n) as Hl. rewrite E in Hl.
    pose proof (wildcards_le_length f) as Hle. rewrite <- Hl, Hw in Hle.
    cbn in Hle. assert (1 <= (size K + 3) / 4); [|lia].
    apply Z.div_le_lower_bound; lia. }
  rewrite (_parse_spec _ _ Hne), normalise_render, render_length by exact Hfree.
  rewrite Hfind, Hsize, accumulate_render, Hw by exact Hfree.
  rewrite Z.mod_small by exact Hcap.
  rewrite shiftr_shiftl_same; [reflexivity|].
  apply (nibble_offset_spec (size K)).
Qed.

Lemma from_text_valid (K : Kind) (s : string) (a : HWAddress) :
  valid_kind K -> from_text K s = OK a -> cls a = K /\ valid a.
Proof.
  intros HK. unfold from_text.
  destruct (_parse s [K]) as [[address k]|e] eqn:E; cbn [bind]; [|discriminate].
  intros H. injection H as <-.
  destruct (_parse_single_in_range K k s address HK E) as [_ Hi].
  apply from_integer_inv in Hi. split; [reflexivity|].
  unfold valid. cbn [cls _address]. tauto.
Qed.

(** X14: The assertions of [test_str], [test_parse] and [test_alternate_parse]:
    the text of a value of a valid kind, whose first format has no
    hexadecimal literal, is built back into the value by the constructor of
    its class and by [parse], with any classes of which its class is the
    first to offer that format. *)
Theorem str_round_trip (a : HWAddress) (f : string) (fs : list string) :
  valid a -> valid_kind (cls a) ->
  formats (cls a) = f :: fs -> hex_free f = true ->
  exists s,
    __str__ a = OK s
    /\ from_text (cls a) s = OK a
    /\ parse s [cls a] = OK (Some a)
    /\ forall classes,
         find (offers (String.length f) f) classes = Some (cls a) ->
         parse s classes = OK (Some a).
Proof.
  intros [Hs Hr] HK Hf Hfree. destruct a as [K n]. cbn [cls _address] in *.
  assert (Hin : In f (formats K)) by (rewrite Hf; now left).
  assert (Hparse : forall classes,
             find (offers (String.length f) f) classes = Some K ->
             parse (render K f n) classes = OK (Some (mkHWAddress K n))).
  { intros classes Hfind. destruct classes as [|k classes]; [discriminate|].
    unfold parse.
    rewrite (_parse_render K K n f (k :: classes) HK Hr Hin Hfree Hfind eq_refl).
    cbn [bind]. now rewrite from_integer_OK. }
  assert (Hself : find (offers (String.length f) f) [K] = Some K).
  { cbn [find]. rewrite (proj2 (offers_In _ _ _)); [reflexivity|]. tauto. }
  exists (render K f n). unfold __str__. cbn [cls _address]. rewrite Hf.
  split; [reflexivity|]. split; [|split; [apply Hparse, Hself | exact Hparse]].
  unfold from_text.
  now rewrite (_parse_render K K n f [K] HK Hr Hin Hfree Hself eq_refl).
Qed.

Lemma str_round_trip_witness :
  valid (mkHWAddress EUI60 0x123456789ABCDEF) /\ valid_kind EUI60
  /\ exists s,
       __str__ (mkHWAddress EUI60 0x123456789ABCDEF) = OK s
       /\ from_text EUI60 s = OK (mkHWAddress EUI60 0x123456789ABCDEF).
Proof.
  assert (Hv : valid (mkHWAddress EUI60 0x123456789ABCDEF)) by (unfold valid; cbn; lia).
  split; [exact Hv|]. split; [exact EUI60_valid|].
  destruct (str_round_trip (mkHWAddress EUI60 0x123456789ABCDEF)
              "x.x.x.x.x.x.x.x.x.x.x.x.x.x.x"
              ["xx-xx-xx.x.x.x.x.x.x.x.x.x"; "xxxxxxxxxxxxxxx"]
              Hv EUI60_valid eq_refl eq_refl) as [s [H1 [H2 _]]].
  exists s. split; [exact H1 | exact H2].
Defined.

(** X15: Text accepted by the constructor of a valid kind, whose first format
    has no hexadecimal literal, prints as a text in that first format, with
    upper-case digits, that the constructor builds back into the same
    value. *)
Theorem text_is_canonicalised (K : Kind) (s f : string) (fs : list string)
    (a : HWAddress) :
  valid_kind K -> formats K = f :: fs -> hex_free f = true ->
  from_text K s = OK a ->
  exists t,
    __str__ a = OK t /\ canonical_text f t = true /\ from_text K t = OK a.
Proof.
  intros HK Hf Hfree Ha.
  destruct (from_text_valid K s a HK Ha) as [Hcls [_ Hr]].
  destruct a as [K' n]. cbn [cls _address] in *. subst K'.
  exists (render K f n). unfold __str__. cbn [cls _address]. rewrite Hf.
  split; [reflexivity|]. split; [apply render_canonical|].
  unfold from_text. rewrite parse_render; try assumption; [reflexivity|].
  rewrite Hf. now left.
Qed.

Lemma text_is_canonicalised_witness :
  valid_kind EUI60
  /\ exists t,
       __str__ (mkHWAddress EUI60 0x123456789abcdef) = OK t
       /\ canonical_text "x.x.x.x.x.x.x.x.x.x.x.x.x.x.x" t = true
       /\ from_text EUI60 t = OK (mkHWAddress EUI60 0x123456789abcdef).
Proof.
  split; [exact EUI60_valid|].
  apply (text_is_canonicalised EUI60 "12-34-56.7.8.9.a.b.c.d.e.f"
           "x.x.x.x.x.x.x.x.x.x.x.x.x.x.x"
           ["xx-xx-xx.x.x.x.x.x.x.x.x.x"; "xxxxxxxxxxxxxxx"]);
    [exact EUI60_valid | reflexivity | reflexivity | vm_compute; reflexivity].
Defined.

(** X16: Two values of one valid kind, whose first format has no hexadecimal
    literal, with integers in range and the same text are the same
    value. *)
Theorem str_injective (a b : HWAddress) (f : string) (fs : list string) :
  valid a -> valid b -> cls a = cls b -> valid_kind (cls a) ->
  formats (cls a) = f :: fs -> hex_free f = true ->
  __str__ a = __str__ b -> a = b.
Proof.
  intros [_ Ha] [_ Hb] Hcls HK Hf Hfree. unfold __str__. rewrite <- Hcls, Hf.
  destruct a as [K na], b as [K' nb]. cbn [cls _address] in *. subst K'.
  intros E. injection E as E.
  assert (Hin : In f (formats K)) by (rewrite Hf; now left).
  pose proof (parse_render K na f HK Ha Hin Hfree) as Pa.
  pose proof (parse_render K nb f HK Hb Hin Hfree) as Pb.
  rewrite E in Pa. rewrite Pa in Pb. congruence.
Qed.

Lemma str_injective_witness :
  valid (mkHWAddress EUI60 5) /\ valid_kind EUI60
  /\ mkHWAddress EUI60 5 = mkHWAddress EUI60 5.
Proof.
  assert (Hv : valid (mkHWAddress EUI60 5)) by (unfold valid; cbn; lia).
  split; [exact Hv|]. split; [exact EUI60_valid|].
  apply (str_injective _ _ "x.x.x.x.x.x.x.x.x.x.x.x.x.x.x"
           ["xx-xx-xx.x.x.x.x.x.x.x.x.x"; "xxxxxxxxxxxxxxx"] Hv Hv);
    [reflexivity | exact EUI60_valid | reflexivity | reflexivity | reflexivity].
Defined.

(** ** The provided classes *)

Ltac valid_provided :=
  split;
  [ split; [cbn; lia|]; split; [discriminate|];
    let f := fresh "f" in
    let Hf := fresh "Hf" in
    intros f Hf; cbn in Hf;
    repeat (destruct Hf as [<-|Hf]; [reflexivity|]); contradiction
  | let f := fresh "f" in
    let Hf := fresh "Hf" in
    intros f Hf; cbn in Hf;
    repeat (destruct Hf as [<-|Hf]; [reflexivity|]); contradiction ].

(** The check of [test_provided_classes], and that no literal of a format
    of the provided classes is a hexadecimal digit. *)
Lemma provided_valid (K : Kind) :
  In K provided ->
  valid_kind K /\ forall f, In f (formats K) -> hex_free f = true.
Proof.
  intros HK. cbn in HK.
  destruct HK as [<-|[<-|[<-|[<-|[<-|[<-|[<-|[]]]]]]]]; valid_provided.
Qed.

(** X17: For every provided class, every format of it and every integer in
    range: the text of the integer under the format is built back by the
    constructor of the class, and by [parse] with all the provided classes
    in their order, where [MAC], which comes first, takes the texts of
    [EUI48]. *)
Theorem provided_round_trip (K : Kind) (f : string) (n : Z) :
  In K provided -> In f (formats K) -> 0 <= n < 2 ^ size K ->
  from_text K (render K f n) = OK (mkHWAddress K n)
  /\ parse (render K f n) provided
     = OK (Some (mkHWAddress (if String.eqb (name K) "EUI48" then MAC else K) n)).
Proof.
  intros HK Hf Hn. destruct (provided_valid K HK) as [Hvalid Hfree].
  specialize (Hfree f Hf). split.
  - unfold from_text. now rewrite (parse_render K n f Hvalid Hn Hf Hfree).
  - assert (Hfind : find (offers (String.length f) f) provided
                    = Some (if String.eqb (name K) "EUI48" then MAC else K)
                    /\ size (if String.eqb (name K) "EUI48" then MAC else K) = size K).
    { cbn in HK.
      destruct HK as [<-|[<-|[<-|[<-|[<-|[<-|[<-|[]]]]]]]]; cbn in Hf;
        repeat (destruct Hf as [<-|Hf]; [split; reflexivity|]); contradiction. }
    destruct Hfind as [Hfind Hsize].
    unfold parse, provided. fold provided.
    rewrite (_parse_render K _ n f provided Hvalid Hn Hf Hfree Hfind Hsize).
    cbn [bind]. rewrite from_integer_OK; [reflexivity | | rewrite Hsize; exact Hn].
    rewrite Hsize. destruct Hvalid. lia.
Qed.

Lemma provided_round_trip_witness :
  In EUI48 provided /\ In "xxxx.xxxx.xxxx" (formats EUI48)
  /\ 0 <= 0x0123456789AB < 2 ^ size EUI48
  /\ from_text EUI48 (render EUI48 "xxxx.xxxx.xxxx" 0x0123456789AB)
     = OK (mkHWAddress EUI48 0x0123456789AB)
  /\ parse (render EUI48 "xxxx.xxxx.xxxx" 0x0123456789AB) provided
     = OK (Some (mkHWAddress MAC 0x0123456789AB)).
Proof.
  split; [cbn; tauto|]. split; [cbn; tauto|]. split; [cbn; lia|].
  apply (provided_round_trip EUI48 "xxxx.xxxx.xxxx" 0x0123456789AB);
    [cbn; tauto | cbn; tauto | cbn; lia].
Defined.

(** ** Prefixes and the order *)

Section Prefixes.

Lemma bits_ltb_proper_prefix (l l' : list bool) :
  l' <> [] -> bits_ltb l (l ++ l') = true.
Proof.
  intros Hne. induction l as [|b l IH]; cbn [app bits_ltb].
  - destruct l'; [congruence | reflexivity].
  - now rewrite Bool.eqb_reflx.
Qed.

Lemma bits_value_firstn (k : nat) (l : list bool) :
  (k <= List.length l)%nat ->
  bits_value (firstn k l) = bits_value l / 2 ^ Z.of_nat (List.length l - k).
Proof.
  intros Hk. rewrite <- (firstn_skipn k l) at 2.
  rewrite bits_value_app, length_skipn.
  pose proof (bits_value_range (skipn k l)) as Hr. rewrite length_skipn in Hr.
  rewrite Z.div_add_l by (apply Z.pow_nonzero; lia).
  rewrite (Z.div_small (bits_value (skipn k l))) by exact Hr. lia.
Qed.

Lemma oui_value_valid (a : HWAddress) :
  valid a -> size OUI <= size (cls a) ->
  valid (mkHWAddress OUI (Z.shiftr (_address a) (size (cls a) - size OUI))).
Proof.
  intros [Hs Hr] H24. unfold valid. cbn [cls _address].
  change (size OUI) with 24 in *.
  split; [lia|]. rewrite Z.shiftr_div_pow2 by lia.
  assert (Hp : 0 < 2 ^ (size (cls a) - 24)) by (apply Z.pow_pos_nonneg; lia).
  split; [apply Z.div_pos; lia|].
  apply Z.div_lt_upper_bound; [exact Hp|].
  rewrite <- Z.pow_add_r by lia.
  replace (size (cls a) - 24 + 24) with (size (cls a)) by lia. lia.
Qed.

Lemma oui_only_with_property (a o : HWAddress) :
  oui a = OK o -> has_oui (cls a) = true.
Proof.
  unfold oui. destruct (has_oui (cls a)); [reflexivity | discriminate].
Qed.

Lemma oui_OK (a : HWAddress) :
  has_oui (cls a) = true -> valid a -> size OUI <= size (cls a) ->
  oui a = OK (mkHWAddress OUI (Z.shiftr (_address a) (size (cls a) - size OUI))).
Proof.
  intros Hp Hv H24. unfold oui, __int__. rewrite Hp. cbn [negb].
  destruct (Z.ltb_spec (size (cls a) - size OUI) 0); [lia|].
  pose proof (oui_value_valid a Hv H24) as [Ho Hr]. cbn [cls _address] in Ho, Hr.
  apply from_integer_OK; assumption.
Qed.

End Prefixes.

(** X18: A value of a class that does not derive from [_StartsWithOUI]
    has no property [oui].  On a value of a class that does, the property
    raises when the value is narrower than an OUI, the count of [>>] being
    negative, and otherwise returns the OUI whose bits are the first 24 bits
    of the value. *)
Theorem oui_is_the_first_bits (a : HWAddress) :
  valid a ->
  (has_oui (cls a) = false -> oui a = Raise AttributeMissing)
  /\ (has_oui (cls a) = true -> size (cls a) < 24 ->
      oui a = Raise NegativeShiftCount)
  /\ (has_oui (cls a) = true -> 24 <= size (cls a) ->
      exists o,
        oui a = OK o /\ cls o = OUI /\ valid o
        /\ _address o = _address a / 2 ^ (size (cls a) - 24)
        /\ _bits o = firstn 24 (_bits a)).
Proof.
  intros Hv. split; [|split].
  - intros Hp. unfold oui. now rewrite Hp.
  - intros Hp Hlt. unfold oui. rewrite Hp. cbn [negb]. change (size OUI) with 24.
    destruct (Z.ltb_spec (size (cls a) - 24) 0); [reflexivity | lia].
  - intros Hp H24. change 24 with (size OUI) in H24.
    pose proof (oui_value_valid a Hv H24) as Ho.
    eexists. split; [apply oui_OK; assumption|].
    split; [reflexivity|]. split; [exact Ho|].
    change (size OUI) with 24 in *. cbn [_address]. split.
    + apply Z.shiftr_div_pow2. lia.
    + pose proof (_bits_length a (proj1 Hv)) as La.
      apply bits_value_inj.
      * rewrite length_firstn.
        pose proof (_bits_length _ (proj1 Ho)) as Lo. cbn [cls size OUI] in Lo.
        lia.
      * rewrite (_bits_value _ Ho), bits_value_firstn, (_bits_value a Hv) by lia.
        cbn [_address]. rewrite Z.shiftr_div_pow2 by lia.
        f_equal. f_equal. lia.
Qed.

Lemma oui_is_the_first_bits_witness :
  valid (mkHWAddress EUI48 0x0123456789AB)
  /\ has_oui (cls (mkHWAddress EUI48 0x0123456789AB)) = true
  /\ oui (mkHWAddress OUI 0x012345) = Raise AttributeMissing
  /\ exists o,
       oui (mkHWAddress EUI48 0x0123456789AB) = OK o /\ cls o = OUI /\ valid o
       /\ _address o = 0x0123456789AB / 2 ^ (48 - 24)
       /\ _bits o = firstn 24 (_bits (mkHWAddress EUI48 0x0123456789AB)).
Proof.
  assert (Hv : valid (mkHWAddress EUI48 0x0123456789AB)) by (unfold valid; cbn; lia).
  assert (Hw : valid (mkHWAddress OUI 0x012345)) by (unfold valid; cbn; lia).
  split; [exact Hv|]. split; [reflexivity|].
  split; [exact (proj1 (oui_is_the_first_bits _ Hw) eq_refl)|].
  apply (proj2 (proj2 (oui_is_the_first_bits _ Hv))); [reflexivity | cbn; lia].
Defined.

(** X19: The order puts a value just after its OUI: the OUI of a value is not
    above it, is below it when the value is wider, and every 24-bit value
    above the OUI is above the value too. *)
Theorem oui_sorts_just_before (a o : HWAddress) :
  valid a -> 24 <= size (cls a) -> oui a = OK o ->
  __le__ o a = true
  /\ (24 < size (cls a) -> __lt__ o a = true)
  /\ (forall o', size (cls o') = 24 -> __lt__ o o' = true -> __lt__ a o' = true).
Proof.
  intros Hv H24 Ho. change 24 with (size OUI) in H24.
  rewrite (oui_OK a (oui_only_with_property a o Ho) Hv H24) in Ho.
  injection Ho as <-.
  change (size OUI) with 24 in *.
  destruct Hv as [Hs Hr]. remember (size (cls a)) as W eqn:HW.
  assert (Hp : 0 < 2 ^ (W - 24)) by (apply Z.pow_pos_nonneg; lia).
  pose proof (Z.div_mod (_address a) (2 ^ (W - 24)) ltac:(lia)) as Hdm.
  pose proof (Z.mod_pos_bound (_address a) (2 ^ (W - 24)) Hp) as Hmod.
  assert (Ha : aligned W a = _address a).
  { unfold aligned. rewrite <- HW. replace (W - W) with 0 by lia.
    apply Z.shiftl_0_r. }
  assert (Ho : aligned W (mkHWAddress OUI (Z.shiftr (_address a) (W - 24)))
               = _address a / 2 ^ (W - 24) * 2 ^ (W - 24)).
  { unfold aligned. cbn [cls _address size OUI].
    rewrite Z.shiftl_mul_pow2, Z.shiftr_div_pow2 by lia. reflexivity. }
  assert (Hso : size (cls (mkHWAddress OUI (Z.shiftr (_address a) (W - 24)))) = 24)
    by reflexivity.
  split; [|split].
  - apply (le_key W); [lia | lia |].
    unfold key_le. rewrite Ha, Ho, Hso, <- HW. lia.
  - intros Hwider. apply (lt_key W); [lia | lia |].
    unfold key_lt. rewrite Ha, Ho, Hso, <- HW. lia.
  - intros o' Hsize'. rewrite (lt_key W _ o'), (lt_key W a o') by lia.
    unfold key_lt. rewrite Ha, Ho, Hso, <- HW.
    unfold aligned. rewrite Hsize', Z.shiftl_mul_pow2 by lia.
    intros [Hlt|[_ Hlt]]; [left | lia].
    apply Z.mul_lt_mono_pos_r in Hlt; [|exact Hp].
    assert ((_address a / 2 ^ (W - 24) + 1) * 2 ^ (W - 24)
            <= _address o' * 2 ^ (W - 24))
      by (apply Z.mul_le_mono_nonneg_r; lia).
    lia.
Qed.

Lemma oui_sorts_just_before_witness :
  valid (mkHWAddress EUI48 0x0123456789AB) /\ 24 <= size EUI48
  /\ __le__ (mkHWAddress OUI 0x012345) (mkHWAddress EUI48 0x0123456789AB) = true.
Proof.
  assert (Hv : valid (mkHWAddress EUI48 0x0123456789AB)) by (unfold valid; cbn; lia).
  split; [exact Hv|]. split; [cbn; lia|].
  exact (proj1 (oui_sorts_just_before (mkHWAddress EUI48 0x0123456789AB)
                  (mkHWAddress OUI 0x012345) Hv ltac:(cbn; lia) eq_refl)).
Defined.

(** X20: A value whose bit string is a proper prefix of the bit string of
    another value is below it, as the docstring of [__lt__] says of
    [OUI('00-00-00')] and [CDI32('00-00-00-00')]. *)
Theorem prefix_sorts_first (a b : HWAddress) (l : list bool) :
  valid a -> valid b -> l <> [] -> _bits b = _bits a ++ l ->
  __lt__ a b = true /\ __le__ a b = true
  /\ __gt__ a b = false /\ __ge__ a b = false.
Proof.
  intros Ha Hb Hne Hbits.
  assert (Hlt : __lt__ a b = true).
  { rewrite (lt_is_bits_ltb a b Ha Hb), Hbits. now apply bits_ltb_proper_prefix. }
  assert (Hge : __ge__ a b = false).
  { rewrite ge_le. rewrite (lt_negb_le a b) in Hlt. now apply negb_true_iff. }
  assert (Hle : __le__ a b = true).
  { set (W := Z.max (size (cls a)) (size (cls b))).
    apply (le_key W a b); [lia | lia |].
    apply (lt_key W a b) in Hlt; [|lia|lia].
    unfold key_lt in Hlt. unfold key_le. lia. }
  assert (Hgt : __gt__ a b = false).
  { rewrite gt_lt, (lt_negb_le b a), Hle. reflexivity. }
  repeat split; assumption.
Qed.

Lemma prefix_sorts_first_witness :
  __lt__ (mkHWAddress OUI 0) (mkHWAddress CDI32 0) = true
  /\ __le__ (mkHWAddress OUI 0) (mkHWAddress CDI32 0) = true
  /\ __gt__ (mkHWAddress OUI 0) (mkHWAddress CDI32 0) = false
  /\ __ge__ (mkHWAddress OUI 0) (mkHWAddress CDI32 0) = false.
Proof.
  apply (prefix_sorts_first (mkHWAddress OUI 0) (mkHWAddress CDI32 0)
           (repeat false 8)).
  - unfold valid. cbn. lia.
  - unfold valid. cbn. lia.
  - discriminate.
  - reflexivity.
Defined.

(** ** Equality and the order *)

(** X22: Two values that compare equal are neither below nor above one another
    and have the same integer and the same byte string. *)
Theorem equal_values_order_equal (a b : HWAddress) :
  __eq__ a b = true ->
  __lt__ a b = false /\ __gt__ a b = false
  /\ __le__ a b = true /\ __ge__ a b = true
  /\ __ne__ a b = false
  /\ __int__ a = __int__ b /\ __bytes__ a = __bytes__ b.
Proof.
  intros E. pose proof E as E'. apply eq_spec in E'.
  destruct E' as [_ [Hs Hr]].
  set (W := size (cls a)).
  assert (Hal : aligned W a = aligned W b).
  { unfold aligned. now rewrite Hs, Hr. }
  assert (Hle : __le__ a b = true).
  { apply (le_key W); [lia | lia |]. unfold key_le. lia. }
  assert (Hle' : __le__ b a = true).
  { apply (le_key W); [lia | lia |]. unfold key_le. lia. }
  repeat split.
  - now rewrite (lt_negb_le a b), Hle'.
  - now rewrite gt_lt, (lt_negb_le b a), Hle.
  - exact Hle.
  - now rewrite ge_le.
  - now rewrite ne_negb_eq, E.
  - exact Hr.
  - unfold __bytes__. now rewrite Hs, Hr.
Qed.

Lemma equal_values_order_equal_witness :
  __lt__ (mkHWAddress EUI48 5) (mkHWAddress EUI48 5) = false
  /\ __gt__ (mkHWAddress EUI48 5) (mkHWAddress EUI48 5) = false.
Proof.
  destruct (equal_values_order_equal (mkHWAddress EUI48 5) (mkHWAddress EUI48 5) eq_refl)
    as [H1 [H2 _]].
  split; [exact H1 | exact H2].
Defined.

(** X23: Values of one size compare as their integers do, whatever their
    classes. *)
Theorem same_size_order (a b : HWAddress) :
  size (cls a) = size (cls b) ->
  __lt__ a b = (_address a <? _address b)
  /\ __le__ a b = (_address a <=? _address b)
  /\ __gt__ a b = (_address b <? _address a)
  /\ __ge__ a b = (_address b <=? _address a).
Proof.
  intros Hs.
  assert (Hpair : _aligned_address_integers a b = (_address a, _address b)).
  { unfold _aligned_address_integers, __int__. rewrite Hs, Z.ltb_irrefl, Z.sub_diag.
    now rewrite Z.shiftl_0_r. }
  unfold __lt__, __le__, __gt__, __ge__. rewrite Hpair, Hs.
  rewrite Z.ltb_irrefl, Z.leb_refl, !andb_false_r, !andb_true_r, !orb_false_r.
  repeat split; try reflexivity.
  - destruct (Z.ltb_spec (_address a) (_address b)),
      (Z.eqb_spec (_address a) (_address b)),
      (Z.leb_spec (_address a) (_address b)); cbn; lia || reflexivity.
  - destruct (Z.ltb_spec (_address b) (_address a)),
      (Z.eqb_spec (_address a) (_address b)),
      (Z.leb_spec (_address b) (_address a)); cbn; lia || reflexivity.
Qed.

Lemma same_size_order_witness :
  size (cls (mkHWAddress EUI48 5)) = size (cls (mkHWAddress MAC 7))
  /\ __lt__ (mkHWAddress EUI48 5) (mkHWAddress MAC 7) = (5 <? 7).
Proof.
  split; [reflexivity|].
  exact (proj1 (same_size_order (mkHWAddress EUI48 5) (mkHWAddress MAC 7) eq_refl)).
Defined.

(** ** The range check of [parse] *)

(** X24: The constructor from text stores what the matcher returns without
    any check, while [parse] passes it to the constructor from an integer:
    on a text that the constructor of a class accepts, [parse] with that
    class returns the same value when its integer is in range and raises
    the too-big error when it is not, which happens for a format with more
    wildcards than the size allows. *)
Theorem parse_checks_the_range (K : Kind) (s : string) (a : HWAddress) :
  0 <= size K -> from_text K s = OK a ->
  0 <= _address a
  /\ (valid a -> parse s [K] = OK (Some a))
  /\ (~ valid a -> parse s [K] = Raise TooBig /\ __bytes__ a = Raise Overflow).
Proof.
  intros Hs. unfold from_text, parse.
  destruct (_parse s [K]) as [[address k]|e] eqn:E; cbn [bind]; [|discriminate].
  intros H. injection H as <-.
  apply _parse_OK_inv in E. destruct E as [_ [[<-|[]] [_ E]]].
  assert (Hpos : 0 <= address).
  { rewrite E. destruct (nibble_offset_spec (size K)) as [Ho _].
    rewrite Z.shiftr_div_pow2 by lia.
    apply Z.div_pos; [apply accumulate_bound | apply Z.pow_pos_nonneg; lia]. }
  cbn [_address]. split; [exact Hpos|]. split.
  - intros [_ Hr]. cbn [cls _address] in Hr. now rewrite from_integer_OK.
  - intros Hnv. split.
    + unfold from_integer. destruct (Z.ltb_spec (size K) 0); [lia|].
      rewrite shiftl_1_pow by lia.
      destruct (Z.leb_spec (2 ^ size K) address); [reflexivity|].
      exfalso. apply Hnv. split; cbn [cls _address]; lia.
    + unfold __bytes__, int_to_bytes. cbn [cls _address].
      destruct (byte_offset_spec (size K)) as [Ho Hsum].
      assert (0 <= Z.shiftr (size K + 7) 3) by lia.
      destruct (Z.ltb_spec (Z.shiftr (size K + 7) 3) 0); [lia|].
      rewrite Z.shiftl_mul_pow2 by lia.
      assert (Hp : 0 < 2 ^ Z.land (8 - size K) 7) by (apply Z.pow_pos_nonneg; lia).
      destruct (Z.ltb_spec (address * 2 ^ Z.land (8 - size K) 7) 0); [reflexivity|].
      change 256 with (2 ^ 8). rewrite <- Z.pow_mul_r, <- Hsum, Z.pow_add_r by lia.
      destruct (Z.leb_spec (2 ^ size K * 2 ^ Z.land (8 - size K) 7)
                  (address * 2 ^ Z.land (8 - size K) 7)); [reflexivity|].
      exfalso. apply Hnv. split; cbn [cls _address]; [exact Hs|]. nia.
Qed.

Lemma parse_checks_the_range_witness :
  0 <= size (Class 8 ["xxx"])
  /\ from_text (Class 8 ["xxx"]) "fff" = OK (mkHWAddress (Class 8 ["xxx"]) 0xfff)
  /\ ~ valid (mkHWAddress (Class 8 ["xxx"]) 0xfff)
  /\ parse "fff" [Class 8 ["xxx"]] = Raise TooBig
  /\ __bytes__ (mkHWAddress (Class 8 ["xxx"]) 0xfff) = Raise Overflow.
Proof.
  assert (Hs : 0 <= size (Class 8 ["xxx"])) by (cbn; lia).
  assert (Hf : from_text (Class 8 ["xxx"]) "fff"
               = OK (mkHWAddress (Class 8 ["xxx"]) 0xfff)) by (vm_compute; reflexivity).
  assert (Hnv : ~ valid (mkHWAddress (Class 8 ["xxx"]) 0xfff)).
  { unfold valid. cbn. lia. }
  split; [exact Hs|]. split; [exact Hf|]. split; [exact Hnv|].
  exact (proj2 (proj2 (parse_checks_the_range _ _ _ Hs Hf)) Hnv).
Defined.
